(** * MelodyMaster: the playback controller, playlist store and validator

    A shallow embedding of [MainContainer.js].  The repository keeps several
    revisions of the component; the two that carry the logic studied here are

    - the revision with shuffle and repeat (a fixed [audioTracks] list), and
    - the final revision (uploads, the three-band equalizer, no shuffle and no
      repeat flag).

    Both share [getNextTrackIdx] and [canPlayAudioSrc], which are embedded
    once.  React state is modelled by explicit state passing: a handler is a
    function from the state of the render it was created in to the state
    after the batched [set...] calls. *)

From Stdlib Require Import ZArith List String Ascii Bool Lia.
From Stdlib Require Import Decimal DecimalString DecimalPos DecimalZ.
Import ListNotations.

Open Scope string_scope.
Open Scope Z_scope.

(** ** The JavaScript operations the component relies on *)

Module JS.

(** [x % y] on integers: the remainder has the sign of the dividend. *)
Definition rem (x y : Z) : Z := Z.rem x y.

(** [arr[k]] for an integer [k]: [None] is [undefined]. *)
Definition index {A : Type} (arr : list A) (k : Z) : option A :=
  if k <? 0 then None else nth_error arr (Z.to_nat k).

(** [arr.length]. *)
Definition len {A : Type} (arr : list A) : Z := Z.of_nat (List.length arr).

(** [!!s] for a string. *)
Definition truthy (s : string) : bool := negb (String.eqb s "").

(** [c.toLowerCase()] on one code unit (the letters A-Z; the extensions and
    the suffix compared against are plain ASCII). *)
Definition lowerAscii (c : ascii) : ascii :=
  let n := nat_of_ascii c in
  if ((65 <=? n) && (n <=? 90))%nat then ascii_of_nat (n + 32) else c.

Fixpoint toLowerCase (s : string) : string :=
  match s with
  | EmptyString => EmptyString
  | String c r => String (lowerAscii c) (toLowerCase r)
  end.

(** [s.split(sep)] for a one-character separator. *)
Fixpoint split (sep : ascii) (s : string) : list string :=
  match s with
  | EmptyString => [EmptyString]
  | String c r =>
      if Ascii.eqb c sep then EmptyString :: split sep r
      else match split sep r with
           | [] => [String c EmptyString]
           | seg :: segs => String c seg :: segs
           end
  end.

(** [arr.pop()]: the last element, [None] on the empty array. *)
Fixpoint pop {A : Type} (arr : list A) : option A :=
  match arr with
  | [] => None
  | [x] => Some x
  | _ :: r => pop r
  end.

(** [s.endsWith(suf)]. *)
Fixpoint endsWith (s suf : string) : bool :=
  String.eqb s suf ||
  match s with
  | EmptyString => false
  | String _ r => endsWith r suf
  end.

(** [s.replace(/\.mp3$/i, "")]: drop one trailing ".mp3", any case. *)
Fixpoint dropMp3Suffix (s : string) : string :=
  if String.eqb (toLowerCase s) ".mp3" then EmptyString
  else match s with
       | EmptyString => EmptyString
       | String c r => String c (dropMp3Suffix r)
       end.

(** Does the string contain the character? *)
Fixpoint contains (c : ascii) (s : string) : bool :=
  match s with
  | EmptyString => false
  | String d r => Ascii.eqb d c || contains c r
  end.

End JS.

(** ** Tracks *)

Record Track := mkTrack {
  title : string;
  artist : string;
  album : string;
  src : string;
  duration : option Z;      (* [null] until the metadata is read *)
  isUploaded : bool
}.

Definition TESTED_MP3 : string :=
  "https://www.soundhelix.com/examples/mp3/SoundHelix-Song-1.mp3".

Definition fallbackTrack : Track :=
  mkTrack "Sample Track (Add your own music!)" "MelodyMaster" "Demo Album"
          TESTED_MP3 (Some 347) false.

(** ** [getNextTrackIdx] *)

Definition getNextTrackIdx (idx dir length : Z) : Z :=
  let next := idx + dir in
  if next <? 0 then length - 1
  else if next >=? length then 0
  else next.

(** ** [canPlayAudioSrc]

    The runtime's [HTMLMediaElement.canPlayType] is a parameter: it answers
    [""], ["maybe"] or ["probably"] for a MIME type. *)

Section Validator.

Variable canPlayType : string -> string.

  (** [src.split(".").pop().toLowerCase()] *)
Definition extension (s : string) : string :=
    match JS.pop (JS.split "." s) with
    | Some e => JS.toLowerCase e
    | None => EmptyString
    end.

  (** [None] is an absent ([undefined] / [null]) source. *)
Definition canPlayAudioSrc (source : option string) : bool :=
    match source with
    | None => false
    | Some s =>
        if negb (JS.truthy s) then false
        else
          let ext := extension s in
          if String.eqb ext "mp3" then JS.truthy (canPlayType "audio/mpeg")
          else if String.eqb ext "wav" then JS.truthy (canPlayType "audio/wav")
          else if String.eqb ext "ogg" then JS.truthy (canPlayType "audio/ogg")
          else true
    end.

Definition playable (t : Track) : bool := canPlayAudioSrc (Some (src t)).

End Validator.

(** ** The revision with shuffle and repeat

    [audioTracks] is the list the developer fills in (the source ships three
    remote MP3 files and invites adding more), so it is a parameter here.
    [Math.random] is an oracle: [draws] lists the successive values of
    [Math.floor(Math.random() * audioTracks.length)], and a run that needs
    more draws than the list holds has no result. *)

Module ShuffleRepeat.

Definition audioTracks_shipped : list Track :=
  [ mkTrack "Time Machine Groove" "RetroWave" "Neon Nights"
      "https://cdn.pixabay.com/audio/2022/10/16/audio_12c716b9ba.mp3" (Some 201) false;
    mkTrack "Dashboard Dreams" "Synth Escape" "Cruisin'"
      "https://cdn.pixabay.com/audio/2023/05/30/audio_1418e61dbb.mp3" (Some 248) false;
    mkTrack "FM Memories" "Night Drive" "Afterglow"
      "https://cdn.pixabay.com/audio/2023/04/24/audio_146a14c1ce.mp3" (Some 176) false ].

(** What the component touches of the [<audio>] element. *)
Record AudioElement := mkAudio {
  currentTime : Z;
  paused : bool
}.

Record State := mkState {
  currentIdx : Z;
  playing : bool;
  progress : Z;
  shuffle : bool;
  repeat : bool;
  showEQ : bool;
  audioError : string;
  audio : option AudioElement      (* [audioRef.current] *)
}.

Definition initial : State :=
  mkState 0 false 0 false false false "" None.

Definition setCurrentIdx (f : Z -> Z) (s : State) : State :=
  mkState (f (currentIdx s)) (playing s) (progress s) (shuffle s) (repeat s)
          (showEQ s) (audioError s) (audio s).
Definition setPlaying (f : bool -> bool) (s : State) : State :=
  mkState (currentIdx s) (f (playing s)) (progress s) (shuffle s) (repeat s)
          (showEQ s) (audioError s) (audio s).
Definition setProgress (v : Z) (s : State) : State :=
  mkState (currentIdx s) (playing s) v (shuffle s) (repeat s)
          (showEQ s) (audioError s) (audio s).
Definition setShuffle (f : bool -> bool) (s : State) : State :=
  mkState (currentIdx s) (playing s) (progress s) (f (shuffle s)) (repeat s)
          (showEQ s) (audioError s) (audio s).
Definition setRepeat (f : bool -> bool) (s : State) : State :=
  mkState (currentIdx s) (playing s) (progress s) (shuffle s) (f (repeat s))
          (showEQ s) (audioError s) (audio s).
Definition withAudio (f : AudioElement -> AudioElement) (s : State) : State :=
  mkState (currentIdx s) (playing s) (progress s) (shuffle s) (repeat s)
          (showEQ s) (audioError s) (option_map f (audio s)).

Section Component.

Variable canPlayType : string -> string.
Variable audioTracks : list Track.

Definition availableTracks : list Track :=
  filter (playable canPlayType) audioTracks.

Definition hasValidTracks : bool := 0 <? JS.len availableTracks.

Definition currentTrack (s : State) : option Track :=
  if hasValidTracks
  then JS.index availableTracks (JS.rem (currentIdx s) (JS.len availableTracks))
  else Some fallbackTrack.

Definition handleTrackClick (idx : Z) (s : State) : State :=
  setPlaying (fun _ => true) (setProgress 0 (setCurrentIdx (fun _ => idx) s)).

Definition handlePlayPause (s : State) : State := setPlaying negb s.

(** [do { next = draw } while (next === excl)] *)
Fixpoint drawUntilDifferent (excl : Z) (draws : list Z) : option Z :=
  match draws with
  | [] => None
  | d :: rest => if d =? excl then drawUntilDifferent excl rest else Some d
  end.

Definition getRandomIdx (excl : Z) (draws : list Z) : option Z :=
  if JS.len audioTracks <? 2 then Some excl
  else drawUntilDifferent excl draws.

Definition handleNext (draws : list Z) (s : State) : option State :=
  let s1 := setProgress 0 s in
  let moved :=
    if shuffle s
    then option_map (fun n => setCurrentIdx (fun _ => n) s1)
                    (getRandomIdx (currentIdx s1) draws)
    else Some (setCurrentIdx
                 (fun idx => getNextTrackIdx idx 1 (JS.len audioTracks)) s1) in
  option_map (setPlaying (fun _ => true)) moved.

Definition handlePrev (draws : list Z) (s : State) : option State :=
  let s1 := setProgress 0 s in
  let moved :=
    if shuffle s
    then option_map (fun n => setCurrentIdx (fun _ => n) s1)
                    (getRandomIdx (currentIdx s1) draws)
    else Some (setCurrentIdx
                 (fun idx => getNextTrackIdx idx (-1) (JS.len audioTracks)) s1) in
  option_map (setPlaying (fun _ => true)) moved.

Definition handleTrackEnd (draws : list Z) (s : State) : option State :=
  if repeat s
  then
    let s1 := setProgress 0 s in
    let s2 := withAudio (fun a => mkAudio 0 (paused a)) s1 in
    let s3 := setPlaying (fun _ => true) s2 in
    Some (withAudio (fun a => mkAudio (currentTime a) false) s3)
  else handleNext draws s.

End Component.

End ShuffleRepeat.

(** ** The final revision: uploads and the equalizer

    The runtime supplies [canPlayType] and [URL.createObjectURL]; both are
    parameters.  The [<audio>] element is rendered unconditionally, so
    [audioRef.current] is present in every handler. *)

Module Final.

Definition defaultTracks : list Track :=
  [ mkTrack "Sample Track (Add your own music!)" "MelodyMaster" "Demo Album"
      TESTED_MP3 (Some 347) false;
    mkTrack "Time Machine Groove" "RetroWave" "Neon Nights"
      "https://cdn.pixabay.com/audio/2022/10/16/audio_12c716b9ba.mp3" (Some 201) false;
    mkTrack "Dashboard Dreams" "Synth Escape" "Cruisin'"
      "https://cdn.pixabay.com/audio/2023/05/30/audio_1418e61dbb.mp3" (Some 248) false;
    mkTrack "FM Memories" "Night Drive" "Afterglow"
      "https://cdn.pixabay.com/audio/2023/04/24/audio_146a14c1ce.mp3" (Some 176) false ].

(** An entry of [e.target.files]. *)
Record File := mkFile {
  type : string;
  name : string
}.

(** [webAudio]: whether the [AudioContext] exists, and the [gain.value] of the
    filter nodes [bass, mid, treble] once they are built. *)
Record WebAudio := mkWebAudio {
  context : bool;
  eqNodes : option (list Z)
}.

Record State := mkState {
  currentIdx : Z;
  playing : bool;
  progress : Z;
  audioError : string;
  fileError : string;
  userTracks : list Track;
  eqBands : list Z;
  showEqPopup : bool;
  webAudio : WebAudio;
  fileInputValue : string;     (* [fileInputRef.current.value] *)
  audioCurrentTime : Z         (* [audioRef.current.currentTime] *)
}.

Definition initial : State :=
  mkState 0 false 0 "" "" [] [0; 0; 0] false (mkWebAudio false None) "" 0.

Definition setCurrentIdx (f : Z -> Z) (s : State) : State :=
  mkState (f (currentIdx s)) (playing s) (progress s) (audioError s) (fileError s)
          (userTracks s) (eqBands s) (showEqPopup s) (webAudio s)
          (fileInputValue s) (audioCurrentTime s).
Definition setPlaying (f : bool -> bool) (s : State) : State :=
  mkState (currentIdx s) (f (playing s)) (progress s) (audioError s) (fileError s)
          (userTracks s) (eqBands s) (showEqPopup s) (webAudio s)
          (fileInputValue s) (audioCurrentTime s).
Definition setProgress (v : Z) (s : State) : State :=
  mkState (currentIdx s) (playing s) v (audioError s) (fileError s)
          (userTracks s) (eqBands s) (showEqPopup s) (webAudio s)
          (fileInputValue s) (audioCurrentTime s).
Definition setAudioError (v : string) (s : State) : State :=
  mkState (currentIdx s) (playing s) (progress s) v (fileError s)
          (userTracks s) (eqBands s) (showEqPopup s) (webAudio s)
          (fileInputValue s) (audioCurrentTime s).
Definition setFileError (v : string) (s : State) : State :=
  mkState (currentIdx s) (playing s) (progress s) (audioError s) v
          (userTracks s) (eqBands s) (showEqPopup s) (webAudio s)
          (fileInputValue s) (audioCurrentTime s).
Definition setUserTracks (f : list Track -> list Track) (s : State) : State :=
  mkState (currentIdx s) (playing s) (progress s) (audioError s) (fileError s)
          (f (userTracks s)) (eqBands s) (showEqPopup s) (webAudio s)
          (fileInputValue s) (audioCurrentTime s).
Definition setEqBands (f : list Z -> list Z) (s : State) : State :=
  mkState (currentIdx s) (playing s) (progress s) (audioError s) (fileError s)
          (userTracks s) (f (eqBands s)) (showEqPopup s) (webAudio s)
          (fileInputValue s) (audioCurrentTime s).
Definition setShowEqPopup (v : bool) (s : State) : State :=
  mkState (currentIdx s) (playing s) (progress s) (audioError s) (fileError s)
          (userTracks s) (eqBands s) v (webAudio s)
          (fileInputValue s) (audioCurrentTime s).
Definition setWebAudio (w : WebAudio) (s : State) : State :=
  mkState (currentIdx s) (playing s) (progress s) (audioError s) (fileError s)
          (userTracks s) (eqBands s) (showEqPopup s) w
          (fileInputValue s) (audioCurrentTime s).
Definition setFileInputValue (v : string) (s : State) : State :=
  mkState (currentIdx s) (playing s) (progress s) (audioError s) (fileError s)
          (userTracks s) (eqBands s) (showEqPopup s) (webAudio s)
          v (audioCurrentTime s).
Definition setAudioCurrentTime (v : Z) (s : State) : State :=
  mkState (currentIdx s) (playing s) (progress s) (audioError s) (fileError s)
          (userTracks s) (eqBands s) (showEqPopup s) (webAudio s)
          (fileInputValue s) v.

(** The messages shown for a rejected batch. *)
Definition NoValidFiles : string := "Please upload only .mp3 audio files.".
Definition PartialRejection : string :=
  "Some selected files were not .mp3 and were ignored.".
Definition PlaybackError : string :=
  "Audio format/source not supported or not reachable. Try another track or check connection.".

(** [arr[i] = v] for a position the array has.  The positions written here
    are those of [bands.map((val, idx) => ...)]; past the end JavaScript would
    grow the array, which never happens on that path and is not modelled
    (the list comes back as it is). *)
Fixpoint assign {A : Type} (arr : list A) (i : nat) (v : A) : list A :=
  match arr, i with
  | [], _ => []
  | _ :: r, O => v :: r
  | x :: r, S j => x :: assign r j v
  end.

(** [arr.includes(x)] on strings. *)
Definition includes (x : string) (arr : list string) : bool :=
  existsb (String.eqb x) arr.

(** The updater passed to [setUserTracks] by [handleFileChange], and the
    [uniqueNew] it computes. *)
Definition uniqueNew (newTracks prev : list Track) : list Track :=
  let prevSources := map src prev in
  filter (fun t => negb (includes (src t) prevSources)) newTracks.

Definition appendUnique (newTracks prev : list Track) : list Track :=
  (prev ++ uniqueNew newTracks prev)%list.

(** The filter of [handleFileChange]. *)
Definition isMp3 (f : File) : bool :=
  String.eqb (type f) "audio/mpeg" ||
  (JS.truthy (name f) && JS.endsWith (JS.toLowerCase (name f)) ".mp3").

Definition mp3Files (files : list File) : list File := filter isMp3 files.

Section Component.

Variable canPlayType : string -> string.
Variable createObjectURL : File -> string.

Definition allTracks (s : State) : list Track :=
  (defaultTracks ++ userTracks s)%list.

Definition availableTracks (s : State) : list Track :=
  filter (playable canPlayType) (allTracks s).

Definition hasValidTracks (s : State) : bool := 0 <? JS.len (availableTracks s).

Definition currentTrack (s : State) : option Track :=
  if hasValidTracks s
  then JS.index (availableTracks s)
                (JS.rem (currentIdx s) (JS.len (availableTracks s)))
  else Some fallbackTrack.

(** The list the track list renders: one [<li>] per entry. *)
Definition renderedTracks (s : State) : list Track :=
  if hasValidTracks s then availableTracks s else [fallbackTrack].

Definition handleTrackClick (idx : Z) (s : State) : State :=
  setPlaying (fun _ => true) (setProgress 0 (setCurrentIdx (fun _ => idx) s)).

Definition handlePlayPause (s : State) : State := setPlaying negb s.

(** [handleNext] as created by a render in which [availableTracks.length]
    was [n]: the updater reads the index of the moment, the length is the one
    the closure captured. *)
Definition handleNextOf (n : Z) (s : State) : State :=
  setPlaying (fun _ => true)
    (setCurrentIdx (fun idx => getNextTrackIdx idx 1 n) (setProgress 0 s)).

Definition handleNext (s : State) : State :=
  handleNextOf (JS.len (availableTracks s)) s.

Definition handlePrev (s : State) : State :=
  let n := JS.len (availableTracks s) in
  setPlaying (fun _ => true)
    (setCurrentIdx (fun idx => getNextTrackIdx idx (-1) n) (setProgress 0 s)).

Definition handleBarChange (val : Z) (s : State) : State :=
  setAudioCurrentTime val (setProgress val s).

Definition handleTrackEnd (s : State) : State := handleNext s.

Definition newTrack (f : File) : Track :=
  mkTrack (JS.dropMp3Suffix (name f)) "You" "Uploaded" (createObjectURL f) None true.

Definition handleFileChange (files : list File) (s : State) : State :=
  let s0 := setFileError "" s in
  if JS.len files =? 0 then s0
  else
    let mp3 := mp3Files files in
    let rejected := negb (JS.len files =? JS.len mp3) in
    if JS.len mp3 =? 0
    then setFileInputValue "" (setFileError NoValidFiles s0)
    else
      let s1 := if rejected then setFileError PartialRejection s0 else s0 in
      let newTracks := map newTrack mp3 in
      setCurrentIdx (fun _ => JS.len (availableTracks s) + JS.len newTracks - 1)
        (setUserTracks (appendUnique newTracks) s1).

(** The [error] listener of the audio element. *)
Definition handleAudioError (s : State) : State :=
  setPlaying (fun _ => false) (setAudioError PlaybackError s).

(** The [timeupdate] listener. *)
Definition update (t : Z) (s : State) : State := setProgress t s.

(** The [loadedmetadata] listener; [measured] is [Math.round(audio.duration)]
    of a finite duration.  Without a current track the render itself would
    have failed, and nothing is changed. *)
Definition setFakeDurationIfMissing (measured : Z) (s : State) : State :=
  match currentTrack s with
  | None => s
  | Some cur =>
      if (0 <? JS.len (userTracks s)) && JS.truthy (src cur)
         && (match duration cur with None => true | Some _ => false end)
      then setUserTracks
             (map (fun ut =>
                     if String.eqb (src ut) (src cur)
                        && (match duration ut with None => true | Some _ => false end)
                     then mkTrack (title ut) (artist ut) (album ut) (src ut)
                                  (Some measured) (isUploaded ut)
                     else ut)) s
      else s
  end.

(** The effect that builds the filter chain: the first run creates the
    context and three filters whose gains are the current bands; later runs
    keep the filters (and so their gains), or build them again if missing. *)
Definition bandGains (s : State) : option (list Z) :=
  match eqBands s with
  | b :: m :: t :: _ => Some [b; m; t]
  | _ => None
  end.

Definition setupGraph (s : State) : State :=
  match eqNodes (webAudio s) with
  | Some nodes => if context (webAudio s) then s
                  else setWebAudio (mkWebAudio true (bandGains s)) s
  | None => setWebAudio (mkWebAudio true (bandGains s)) s
  end.

(** The effect on [eqBands, webAudio.eqNodes]: copy the bands into the gains
    of the three filters. *)
Definition syncGains (s : State) : State :=
  match eqNodes (webAudio s) with
  | None => s
  | Some nodes =>
      if (List.length nodes =? 3)%nat
      then match bandGains s with
           | Some g => setWebAudio (mkWebAudio (context (webAudio s)) (Some g)) s
           | None => s
           end
      else s
  end.

(** The slider's [onChange] in [RetroCarEqualizer]: [nv] is [+e.target.value],
    [idx] the position of the slider among [bands]. *)
Definition sliderOnChange (idx : nat) (nv : Z) (s : State) : State :=
  let s1 := setEqBands (fun prev => assign prev idx nv) s in
  match eqNodes (webAudio s) with
  | Some nodes =>
      if (idx <? List.length nodes)%nat
      then setWebAudio (mkWebAudio (context (webAudio s)) (Some (assign nodes idx nv))) s1
      else s1
  | None => s1
  end.

(** Moving a slider, followed by the effect the new [eqBands] triggers. *)
Definition setGain (idx : nat) (db : Z) (s : State) : State :=
  syncGains (sliderOnChange idx db s).

(** The gain applied to filter node [idx], if the node exists. *)
Definition appliedGain (idx : nat) (s : State) : option Z :=
  match eqNodes (webAudio s) with
  | Some nodes => nth_error nodes idx
  | None => None
  end.

(** *** The component as a transition system *)

Inductive Event :=
| TrackClick (idx : nat)
| PlayPause
| Next
| Prev
| Ended (captured : nat)
| BarChange (val : Z)
| FileChange (files : list File)
| AudioError
| TimeUpdate (t : Z)
| LoadedMetadata (measured : Z)
| Slider (idx : nat) (nv : Z)
| ShowEq
| HideEq
| GraphEffect.

(** What the page lets happen: a click lands on a rendered [<li>], a slider
    is one of those drawn for [bands] and reports a value within its
    [min = -12] and [max = 12].  The [ended] listener is re-attached only when
    [currentIdx] changes, so it may be the [handleTrackEnd] of an earlier
    render; [Ended] carries the length that listener captured, and any length
    is allowed. *)
Definition enabled (e : Event) (s : State) : Prop :=
  match e with
  | TrackClick idx => (idx < List.length (renderedTracks s))%nat
  | Slider idx nv => (idx < List.length (eqBands s))%nat /\ -12 <= nv <= 12
  | _ => True
  end.

(** Before the [change] handler runs the browser has put the selection into
    the control's value (the fake path of the first file). *)
Definition selectionValue (files : list File) : string :=
  match files with
  | [] => ""
  | f :: _ => "C:" ++ String (ascii_of_nat 92) ("fakepath" ++ String (ascii_of_nat 92) (name f))
  end.

Definition dispatch (e : Event) (s : State) : State :=
  match e with
  | TrackClick idx => handleTrackClick (Z.of_nat idx) s
  | PlayPause => handlePlayPause s
  | Next => handleNext s
  | Prev => handlePrev s
  | Ended captured => handleNextOf (Z.of_nat captured) s
  | BarChange val => handleBarChange val s
  | FileChange files =>
      handleFileChange files (setFileInputValue (selectionValue files) s)
  | AudioError => handleAudioError s
  | TimeUpdate t => update t s
  | LoadedMetadata measured => setFakeDurationIfMissing measured s
  | Slider idx nv => setGain idx nv s
  | ShowEq => setShowEqPopup true s
  | HideEq => setShowEqPopup false s
  | GraphEffect => syncGains (setupGraph s)
  end.

Inductive reachable : State -> Prop :=
| reach_initial : reachable initial
| reach_step : forall s e, reachable s -> enabled e s -> reachable (dispatch e s).

End Component.

End Final.

(** ** Labels: [formatTime]

    The argument is a JavaScript number: [NaN] (which is also what
    [undefined] becomes), or a whole number of seconds.  A [null] duration
    passes [isNaN] and counts as 0 in the arithmetic. *)

Inductive JSNumber :=
| NaN
| Num (z : Z).

Definition ofDuration (d : option Z) : JSNumber :=
  match d with
  | Some z => Num z
  | None => Num 0
  end.

(** [n.toString()] for a whole number. *)
Definition toString (z : Z) : string := NilZero.string_of_int (Z.to_int z).

Fixpoint repeatChar (n : nat) (c : ascii) : string :=
  match n with
  | O => EmptyString
  | S k => String c (repeatChar k c)
  end.

(** [s.padStart(target, pad)] for a one-character [pad]. *)
Definition padStart (target : nat) (pad : ascii) (s : string) : string :=
  repeatChar (target - String.length s) pad ++ s.

(** The whole numbers a double holds exactly: those of magnitude below
    [2 ^ 53]. *)
Definition safeInteger (z : Z) : bool := Z.abs z <? 9007199254740992.

(** The code computes on doubles.  On a safe integer
    [Math.floor(secs / 60)] is the floor division and [Math.floor(secs % 60)]
    the remainder with the sign of [secs], both printed in decimal.  Past the
    safe integers the doubles round and the label is not modelled: [None]. *)
Definition formatTime (secs : JSNumber) : option string :=
  match secs with
  | NaN => Some "--:--"
  | Num z =>
      if safeInteger z
      then
        let m := z / 60 in
        let s := JS.rem z 60 in
        Some (toString m ++ ":" ++ padStart 2 "0" (toString s))
      else None
  end.

(** ** The final revision: what disables the player

    [cannotPlayAny] reads [currentTrack.src]; without a current track the
    render fails ([None]). *)

Section Shell.

Variable canPlayType : string -> string.

Definition cannotPlayAny (s : Final.State) : option bool :=
  option_map (fun t => negb (canPlayAudioSrc canPlayType (Some (src t))))
             (Final.currentTrack canPlayType s).

(** [!hasValidTracks || cannotPlayAny]: the shell is dimmed and takes no
    pointer events. *)
Definition shellDisabled (s : Final.State) : option bool :=
  option_map (fun c => negb (Final.hasValidTracks canPlayType s) || c)
             (cannotPlayAny s).

End Shell.

(** ** The first revision: three fixed tracks, no audio

    The current track is [dummyTracks[currentIdx]], without a modulo. *)

Module First.

Record DummyTrack := mkDummy {
  title : string;
  artist : string;
  album : string;
  art : string;
  duration : string
}.

Definition dummyTracks : list DummyTrack :=
  [ mkDummy "Time Machine Groove" "RetroWave" "Neon Nights"
      "https://i.imgur.com/GVlQINJ.png" "3:21";
    mkDummy "Dashboard Dreams" "Synth Escape" "Cruisin'"
      "https://i.imgur.com/ZA7AKWD.png" "4:08";
    mkDummy "FM Memories" "Night Drive" "Afterglow"
      "https://i.imgur.com/9e3ldwV.png" "2:56" ].

Record State := mkState {
  currentIdx : Z;
  playing : bool
}.

Definition initial : State := mkState 0 false.

Definition currentTrack (s : State) : option DummyTrack :=
  JS.index dummyTracks (currentIdx s).

Definition handlePlayPause (s : State) : State :=
  mkState (currentIdx s) (negb (playing s)).

Definition handleNext (s : State) : State :=
  mkState (getNextTrackIdx (currentIdx s) 1 (JS.len dummyTracks)) (playing s).

Definition handlePrev (s : State) : State :=
  mkState (getNextTrackIdx (currentIdx s) (-1) (JS.len dummyTracks)) (playing s).

Definition handleTrackClick (idx : Z) (s : State) : State :=
  mkState idx (playing s).

Inductive Event :=
| PlayPause
| Next
| Prev
| TrackClick (idx : nat).

(** A click lands on one of the [<li>] drawn for [dummyTracks]. *)
Definition enabled (e : Event) : Prop :=
  match e with
  | TrackClick idx => (idx < List.length dummyTracks)%nat
  | _ => True
  end.

Definition dispatch (e : Event) (s : State) : State :=
  match e with
  | PlayPause => handlePlayPause s
  | Next => handleNext s
  | Prev => handlePrev s
  | TrackClick idx => handleTrackClick (Z.of_nat idx) s
  end.

Inductive reachable : State -> Prop :=
| reach_initial : reachable initial
| reach_step : forall s e, reachable s -> enabled e -> reachable (dispatch e s).

End First.

(** ** The second revision: cover art of uploaded tracks

    [handleFileChange] there gives the file at position [idx] of the admitted
    batch the art [mockArts[(userTracks.length + idx) % mockArts.length]]. *)

Module Covers.

Definition mockArts : list string :=
  [ "https://placehold.co/120x120/2ecc40/ffffff.png?text=Your+Song";
    "https://placehold.co/120x120/ff8b4d/fff.png?text=MP3";
    "https://placehold.co/120x120/8888FF/fff.png?text=Music";
    "https://placehold.co/120x120/E87A41/fff.png?text=Upload" ].

Definition artOf (userTracksLength idx : nat) : option string :=
  JS.index mockArts
    (JS.rem (Z.of_nat userTracksLength + Z.of_nat idx) (JS.len mockArts)).

End Covers.

(** * Vocabulary of the properties *)

(** A name ends in ".mp3" in any letter case. *)
Definition hasMp3Suffix (n : string) : Prop :=
  exists stem ext, n = stem ++ ext /\ JS.toLowerCase ext = ".mp3".

(** How many tracks of a list carry a given source. *)
Definition sourceCount (x : string) (l : list Track) : nat :=
  count_occ string_dec (map src l) x.

(** The range of the equalizer's sliders. *)
Definition inRange (g : Z) : Prop := -12 <= g <= 12.

(** Every band and every filter gain is within the sliders' range. *)
Definition gainInv (s : Final.State) : Prop :=
  Forall inRange (Final.eqBands s)
  /\ (forall nodes, Final.eqNodes (Final.webAudio s) = Some nodes ->
        Forall inRange nodes).

(** The index never drops below -1, and is not negative while some track is
    playable. *)
Definition indexInv (canPlayType : string -> string) (s : Final.State) : Prop :=
  -1 <= Final.currentIdx s
  /\ (Final.availableTracks canPlayType s <> [] -> 0 <= Final.currentIdx s).

(** One list continues another. *)
Definition prefixOf {A : Type} (l1 l2 : list A) : Prop :=
  exists rest, l2 = (l1 ++ rest)%list.

(** Three bands; the filters, once built, carry the bands' values; the
    context exists exactly when the filters do. *)
Definition eqInv (s : Final.State) : Prop :=
  List.length (Final.eqBands s) = 3%nat
  /\ (forall nodes, Final.eqNodes (Final.webAudio s) = Some nodes ->
        nodes = Final.eqBands s)
  /\ (Final.context (Final.webAudio s) = true <->
      Final.eqNodes (Final.webAudio s) <> None).

(** What [handleFileChange] gives every track it builds. *)
Definition uploadShaped (t : Track) : Prop :=
  isUploaded t = true /\ artist t = "You" /\ album t = "Uploaded".

(** A string of decimal digits read back as a number. *)
Definition parseInt (s : string) : option Z :=
  option_map Z.of_int (NilZero.int_of_string s).

(** What the [loadedmetadata] listener makes of an uploaded track [ut] when
    the current track is [cur]. *)
Definition backfilled (measured : Z) (cur ut : Track) : Track :=
  if String.eqb (src ut) (src cur)
     && (match duration ut with None => true | Some _ => false end)
  then mkTrack (title ut) (artist ut) (album ut) (src ut) (Some measured) (isUploaded ut)
  else ut.

(** Whether the listener has something to fill in. *)
Definition durationMissing (s : Final.State) (cur : Track) : bool :=
  (0 <? JS.len (Final.userTracks s)) && JS.truthy (src cur)
  && (match duration cur with None => true | Some _ => false end).

(** What a browser guarantees of [URL.createObjectURL] during one [change]
    event: the URLs it mints for the admitted files are pairwise distinct,
    and none is the source of a track the store already holds, built-in or
    uploaded. *)
Definition freshURLs (createObjectURL : Final.File -> string)
    (files : list Final.File) (s : Final.State) : Prop :=
  NoDup (map createObjectURL (Final.mp3Files files))
  /\ (forall f, In f (Final.mp3Files files) ->
        ~ In (createObjectURL f) (map src (Final.allTracks s))).

(** The states the component reaches in a browser: every event is served by
    the object-URL oracle of its moment, and an upload gets fresh URLs. *)
Inductive browserReachable (canPlayType : string -> string) : Final.State -> Prop :=
| browser_initial : browserReachable canPlayType Final.initial
| browser_step : forall s e url,
    browserReachable canPlayType s ->
    Final.enabled canPlayType e s ->
    (forall files, e = Final.FileChange files -> freshURLs url files s) ->
    browserReachable canPlayType (Final.dispatch canPlayType url e s).

(** The value an [<input type="range">] with the given [min] and [max]
    reports when [raw] is asked of it: the browser keeps the control's value
    within its bounds.  The equalizer's sliders are declared with
    [min = -12], [max = 12] and [step = 1]. *)
Definition rangeValue (min max raw : Z) : Z := Z.max min (Z.min max raw).

(** ** Runtimes, states and batches used in the examples *)

(** A runtime that decodes MP3 and Ogg but not WAV. *)
Definition noWavRuntime (mime : string) : string :=
  if String.eqb mime "audio/mpeg" then "probably"
  else if String.eqb mime "audio/ogg" then "maybe"
  else "".

(** A runtime that decodes nothing. *)
Definition deafRuntime (mime : string) : string := "".

(** An object-URL oracle: one URL per file name. *)
Definition blobByName (f : Final.File) : string := "blob:" ++ Final.name f.

(** The first render followed by the effect that builds the filter chain. *)
Definition mounted : Final.State :=
  Final.dispatch noWavRuntime blobByName Final.GraphEffect Final.initial.

(** The state in which the [change] handler finds the page once the browser
    has recorded the selection. *)
Definition selected (files : list Final.File) : Final.State :=
  Final.setFileInputValue (Final.selectionValue files) mounted.

Definition wavBatch : list Final.File :=
  [ Final.mkFile "audio/wav" "take1.wav"; Final.mkFile "audio/wav" "take2.wav" ].

Definition mixedBatch : list Final.File :=
  [ Final.mkFile "audio/mpeg" "one.mp3"; Final.mkFile "text/plain" "notes.txt";
    Final.mkFile "text/plain" "todo.txt" ].

Definition twoSongs : list Final.File :=
  [ Final.mkFile "audio/mpeg" "first.mp3"; Final.mkFile "" "Second.MP3" ].

(** A track as [handleFileChange] builds it. *)
Definition uploaded (title source : string) : Track :=
  mkTrack title "You" "Uploaded" source None true.

(** The shuffle-and-repeat revision at the end of its second track, repeat
    on. *)
Definition repeating : ShuffleRepeat.State :=
  ShuffleRepeat.mkState 1 true 201 false true false ""
    (Some (ShuffleRepeat.mkAudio 201 true)).


(** A paused, shuffling player 42 seconds into its first track. *)
Definition shufflingPaused : ShuffleRepeat.State :=
  ShuffleRepeat.mkState 0 false 42 true false false "" None.

(** * Properties *)

(** Split on the condition of a conditional in the goal. *)
Ltac case_if :=
  match goal with |- context [if ?c then _ else _] => destruct c end.

(** Pairwise distinctness of a literal list of strings. *)
Ltac distinct_strings :=
  repeat (constructor; [simpl; intuition discriminate|]); constructor.

(** ** Strings *)

Example extension_mp3 : extension TESTED_MP3 = "mp3".
Proof. reflexivity. Qed.

Example extension_upper : extension "a.b/Song.OGG" = "ogg".
Proof. reflexivity. Qed.

Example extension_blob :
  extension "blob:http://localhost:3000/7e1c" = "blob:http://localhost:3000/7e1c".
Proof. reflexivity. Qed.

Example drop_suffix : JS.dropMp3Suffix "My.mp3 Song.Mp3" = "My.mp3 Song".
Proof. reflexivity. Qed.

Example ends_with_upper : JS.endsWith (JS.toLowerCase "TUNE.MP3") ".mp3" = true.
Proof. reflexivity. Qed.

Lemma split_nonempty (sep : ascii) (s : string) : JS.split sep s <> [].
Proof.
  destruct s as [|c r]; simpl; [discriminate|].
  destruct (Ascii.eqb c sep); [discriminate|].
  destruct (JS.split sep r); discriminate.
Qed.

Lemma split_no_sep (sep : ascii) (s : string) :
  JS.contains sep s = false -> JS.split sep s = [s].
Proof.
  induction s as [|c r IH]; simpl; intros H; [reflexivity|].
  apply orb_false_iff in H as [Hc Hr].
  rewrite Hc, (IH Hr). reflexivity.
Qed.

Lemma split_app (sep : ascii) (pre suf : string) :
  JS.split sep (pre ++ String sep suf) = (JS.split sep pre ++ JS.split sep suf)%list.
Proof.
  induction pre as [|c r IH]; simpl.
  - rewrite Ascii.eqb_refl. reflexivity.
  - destruct (Ascii.eqb c sep).
    + rewrite IH. reflexivity.
    + rewrite IH. destruct (JS.split sep r) as [|seg segs] eqn:E.
      * exfalso. exact (split_nonempty sep r E).
      * reflexivity.
Qed.

Lemma pop_app {A : Type} (l1 l2 : list A) :
  l2 <> [] -> JS.pop (l1 ++ l2)%list = JS.pop l2.
Proof.
  intros H. induction l1 as [|x l1 IH]; [reflexivity|].
  simpl. rewrite IH. destruct (l1 ++ l2)%list eqn:E; [|reflexivity].
  apply app_eq_nil in E as [_ E]. contradiction.
Qed.

(** The extension is the lower-cased text after the last dot ... *)
Lemma extension_after_last_dot (pre suf : string) :
  JS.contains "." suf = false ->
  extension (pre ++ String "." suf) = JS.toLowerCase suf.
Proof.
  intros H. unfold extension.
  rewrite split_app, pop_app by apply split_nonempty.
  rewrite (split_no_sep _ _ H). reflexivity.
Qed.

(** ... and the whole lower-cased source when it has no dot. *)
Lemma extension_no_dot (s : string) :
  JS.contains "." s = false -> extension s = JS.toLowerCase s.
Proof.
  intros H. unfold extension. rewrite (split_no_sep _ _ H). reflexivity.
Qed.

Lemma endsWith_nil (suf : string) :
  JS.endsWith "" suf = String.eqb "" suf.
Proof. unfold JS.endsWith. apply orb_false_r. Qed.

Lemma endsWith_cons (c : ascii) (r suf : string) :
  JS.endsWith (String c r) suf = String.eqb (String c r) suf || JS.endsWith r suf.
Proof. reflexivity. Qed.

Lemma endsWith_spec (s suf : string) :
  JS.endsWith s suf = true <-> exists pre, s = pre ++ suf.
Proof.
  induction s as [|c r IH].
  - rewrite endsWith_nil, String.eqb_eq. split.
    + intros <-. exists "". reflexivity.
    + intros [pre H]. destruct pre; simpl in H; [assumption|discriminate].
  - rewrite endsWith_cons, orb_true_iff, String.eqb_eq, IH. split.
    + intros [<-|[pre ->]]; [exists ""|exists (String c pre)]; reflexivity.
    + intros [[|d pre] H]; simpl in H.
      * left. assumption.
      * right. injection H as _ ->. exists pre. reflexivity.
Qed.

Lemma truthy_false_iff (s : string) : JS.truthy s = false <-> s = "".
Proof.
  unfold JS.truthy. rewrite negb_false_iff. apply String.eqb_eq.
Qed.

Lemma truthy_true_iff (s : string) : JS.truthy s = true <-> s <> "".
Proof.
  unfold JS.truthy. rewrite negb_true_iff. apply String.eqb_neq.
Qed.

(** ** The validator *)

Section ValidatorFacts.

Variable canPlayType : string -> string.

Lemma canPlay_nonempty (s : string) :
  s <> "" ->
  canPlayAudioSrc canPlayType (Some s) =
    if String.eqb (extension s) "mp3" then JS.truthy (canPlayType "audio/mpeg")
    else if String.eqb (extension s) "wav" then JS.truthy (canPlayType "audio/wav")
    else if String.eqb (extension s) "ogg" then JS.truthy (canPlayType "audio/ogg")
    else true.
Proof.
  intros H. unfold canPlayAudioSrc.
  apply truthy_true_iff in H. rewrite H. reflexivity.
Qed.

(** C9.  [canPlayAudioSrc] answers false for an absent or empty source; for a
    non-empty source whose extension is none of mp3, wav, ogg it answers
    true; for those three extensions it answers whether the runtime's
    [canPlayType] reports support for audio/mpeg, audio/wav, audio/ogg.  The
    extension is the text after the last dot, lower-cased (the whole source,
    lower-cased, when it has no dot). *)
Theorem canPlayAudioSrc_verdict :
  canPlayAudioSrc canPlayType None = false
  /\ canPlayAudioSrc canPlayType (Some "") = false
  /\ (forall s, s <> "" ->
        extension s <> "mp3" -> extension s <> "wav" -> extension s <> "ogg" ->
        canPlayAudioSrc canPlayType (Some s) = true)
  /\ (forall s, s <> "" -> extension s = "mp3" ->
        canPlayAudioSrc canPlayType (Some s) = JS.truthy (canPlayType "audio/mpeg"))
  /\ (forall s, s <> "" -> extension s = "wav" ->
        canPlayAudioSrc canPlayType (Some s) = JS.truthy (canPlayType "audio/wav"))
  /\ (forall s, s <> "" -> extension s = "ogg" ->
        canPlayAudioSrc canPlayType (Some s) = JS.truthy (canPlayType "audio/ogg"))
  /\ (forall pre suf, JS.contains "." suf = false ->
        extension (pre ++ String "." suf) = JS.toLowerCase suf)
  /\ (forall s, JS.contains "." s = false -> extension s = JS.toLowerCase s).
Proof.
  repeat split.
  - intros s Hs H1 H2 H3. rewrite canPlay_nonempty by assumption.
    apply String.eqb_neq in H1, H2, H3. rewrite H1, H2, H3. reflexivity.
  - intros s Hs H. rewrite canPlay_nonempty by assumption. rewrite H. reflexivity.
  - intros s Hs H. rewrite canPlay_nonempty by assumption. rewrite H. reflexivity.
  - intros s Hs H. rewrite canPlay_nonempty by assumption. rewrite H. reflexivity.
  - apply extension_after_last_dot.
  - apply extension_no_dot.
Qed.

End ValidatorFacts.

Lemma canPlayAudioSrc_verdict_witness :
  canPlayAudioSrc noWavRuntime (Some "blob:http://localhost:3000/7e1c") = true
  /\ canPlayAudioSrc noWavRuntime (Some "https://example.org/a/Song.MP3") = true
  /\ canPlayAudioSrc noWavRuntime (Some "take.1.wav") = false
  /\ canPlayAudioSrc noWavRuntime (Some "x.Ogg") = true.
Proof.
  destruct (canPlayAudioSrc_verdict noWavRuntime)
    as (_ & _ & Hother & Hmp3 & Hwav & Hogg & _ & _).
  split; [|split; [|split]].
  - apply Hother; discriminate.
  - rewrite Hmp3; [reflexivity|discriminate|reflexivity].
  - rewrite Hwav; [reflexivity|discriminate|reflexivity].
  - rewrite Hogg; [reflexivity|discriminate|reflexivity].
Defined.

(** ** [getNextTrackIdx] *)

Lemma getNextTrackIdx_next (i n : Z) :
  0 <= i < n ->
  getNextTrackIdx i 1 n = if i =? n - 1 then 0 else i + 1.
Proof.
  intros H. unfold getNextTrackIdx. cbv zeta.
  destruct (i + 1 <? 0) eqn:E1; [lia|].
  destruct (i + 1 >=? n) eqn:E2; destruct (i =? n - 1) eqn:E3; lia.
Qed.

Lemma getNextTrackIdx_prev (i n : Z) :
  0 <= i < n ->
  getNextTrackIdx i (-1) n = if i =? 0 then n - 1 else i - 1.
Proof.
  intros H. unfold getNextTrackIdx. cbv zeta.
  destruct (i + -1 <? 0) eqn:E1; destruct (i =? 0) eqn:E3; try lia.
  destruct (i + -1 >=? n) eqn:E2; lia.
Qed.

Lemma getNextTrackIdx_next_mod (i n : Z) :
  0 <= i < n -> getNextTrackIdx i 1 n = (i + 1) mod n.
Proof.
  intros H. rewrite getNextTrackIdx_next by assumption.
  destruct (i =? n - 1) eqn:E.
  - apply Z.eqb_eq in E. replace (i + 1) with n by lia.
    symmetry. apply Z_mod_same_full.
  - apply Z.eqb_neq in E. symmetry. apply Z.mod_small. lia.
Qed.

(** Stepping forward [k] times from an index in range adds [k] modulo [n]. *)
Lemma iter_next_mod (n : Z) (k : nat) (i : Z) :
  0 <= i < n ->
  Nat.iter k (fun j => getNextTrackIdx j 1 n) i = (i + Z.of_nat k) mod n.
Proof.
  intros H. induction k as [|k IH].
  - simpl. rewrite Z.add_0_r. symmetry. apply Z.mod_small. assumption.
  - rewrite Nat.iter_succ, IH.
    rewrite getNextTrackIdx_next_mod by (apply Z.mod_pos_bound; lia).
    rewrite Zplus_mod_idemp_l. f_equal. lia.
Qed.

Example next_wraps : getNextTrackIdx 3 1 4 = 0.
Proof. reflexivity. Qed.

Example prev_wraps : getNextTrackIdx 0 (-1) 4 = 3.
Proof. reflexivity. Qed.

Example prev_on_empty : getNextTrackIdx 0 (-1) 0 = -1.
Proof. reflexivity. Qed.

(** ** The final revision: transport *)

Section FinalTransport.

Variable canPlayType : string -> string.

Abbreviation availableTracks := (Final.availableTracks canPlayType).
Abbreviation handleNext := (Final.handleNext canPlayType).
Abbreviation handlePrev := (Final.handlePrev canPlayType).

Lemma handleNext_userTracks (s : Final.State) :
  Final.userTracks (handleNext s) = Final.userTracks s.
Proof. reflexivity. Qed.

Lemma handleNext_available (s : Final.State) :
  availableTracks (handleNext s) = availableTracks s.
Proof. reflexivity. Qed.

Lemma handleNext_currentIdx (s : Final.State) :
  Final.currentIdx (handleNext s) =
    getNextTrackIdx (Final.currentIdx s) 1 (JS.len (availableTracks s)).
Proof. reflexivity. Qed.

Lemma iter_handleNext (k : nat) (s : Final.State) :
  availableTracks (Nat.iter k handleNext s) = availableTracks s
  /\ Final.currentIdx (Nat.iter k handleNext s) =
       Nat.iter k (fun j => getNextTrackIdx j 1 (JS.len (availableTracks s)))
                (Final.currentIdx s).
Proof.
  induction k as [|k [IHa IHi]]; [split; reflexivity|].
  rewrite !Nat.iter_succ. split.
  - rewrite handleNext_available. assumption.
  - rewrite handleNext_currentIdx, IHa, IHi. reflexivity.
Qed.

(** C2.  With [n > 0] playable tracks and the index [i] in [[0, n)],
    [handleNext] moves to [i + 1], wrapping [n - 1] to [0]; [handlePrev]
    moves to [i - 1], wrapping [0] to [n - 1]; both set the position to 0 and
    the play intent to true. *)
Theorem next_prev_wraparound (s : Final.State) (n i : Z) :
  JS.len (availableTracks s) = n -> Final.currentIdx s = i ->
  0 < n -> 0 <= i < n ->
  Final.currentIdx (handleNext s) = (if i =? n - 1 then 0 else i + 1)
  /\ Final.progress (handleNext s) = 0
  /\ Final.playing (handleNext s) = true
  /\ Final.currentIdx (handlePrev s) = (if i =? 0 then n - 1 else i - 1)
  /\ Final.progress (handlePrev s) = 0
  /\ Final.playing (handlePrev s) = true.
Proof.
  intros Hn Hi Hpos Hrange.
  repeat split.
  - rewrite handleNext_currentIdx, Hn, Hi. apply getNextTrackIdx_next. assumption.
  - unfold Final.handlePrev. simpl. rewrite Hn, Hi.
    apply getNextTrackIdx_prev. assumption.
Qed.

(** C3.  With [n > 0] playable tracks and the index [i] in [[0, n)], the
    index after [k] applications of [handleNext] is [(i + k) mod n]: it is
    away from [i] after every [k] with [0 < k < n], and back at [i] after
    [n].  The successor is a cycle of order [n]. *)
Theorem next_cycle (s : Final.State) (n k : nat) :
  List.length (availableTracks s) = n ->
  (0 < n)%nat ->
  0 <= Final.currentIdx s < Z.of_nat n ->
  Final.currentIdx (Nat.iter k handleNext s)
    = (Final.currentIdx s + Z.of_nat k) mod Z.of_nat n
  /\ ((0 < k < n)%nat ->
      Final.currentIdx (Nat.iter k handleNext s) <> Final.currentIdx s)
  /\ Final.currentIdx (Nat.iter n handleNext s) = Final.currentIdx s.
Proof.
  intros Hn Hpos Hrange.
  assert (Hiter : forall j,
            Final.currentIdx (Nat.iter j handleNext s)
            = (Final.currentIdx s + Z.of_nat j) mod Z.of_nat n).
  { intros j. destruct (iter_handleNext j s) as [_ ->].
    unfold JS.len. rewrite Hn. apply iter_next_mod. assumption. }
  split; [apply Hiter|]. split.
  - intros Hk. rewrite Hiter. intros Heq.
    set (i := Final.currentIdx s) in *.
    destruct (Z_lt_ge_dec (i + Z.of_nat k) (Z.of_nat n)) as [Hlt|Hge].
    + rewrite Z.mod_small in Heq by lia. lia.
    + replace (i + Z.of_nat k) with (i + Z.of_nat k - Z.of_nat n + 1 * Z.of_nat n)
        in Heq by lia.
      rewrite Z_mod_plus_full, Z.mod_small in Heq by lia. lia.
  - rewrite Hiter.
    rewrite <- (Z.mul_1_l (Z.of_nat n)) at 1.
    rewrite Z_mod_plus_full. apply Z.mod_small. assumption.
Qed.

(** The final revision has no repeat flag: the end of a track is a plain
    [handleNext]. *)
Remark final_handleTrackEnd_advances (s : Final.State) :
  Final.handleTrackEnd canPlayType s = handleNext s.
Proof. reflexivity. Qed.

End FinalTransport.

Lemma next_prev_wraparound_witness :
  let s := Final.handleTrackClick 3 Final.initial in
  JS.len (Final.availableTracks noWavRuntime s) = 4
  /\ Final.currentIdx (Final.handleNext noWavRuntime s) = 0
  /\ Final.progress (Final.handleNext noWavRuntime s) = 0
  /\ Final.playing (Final.handleNext noWavRuntime s) = true
  /\ Final.currentIdx (Final.handlePrev noWavRuntime s) = 2
  /\ Final.progress (Final.handlePrev noWavRuntime s) = 0
  /\ Final.playing (Final.handlePrev noWavRuntime s) = true.
Proof.
  intros s. split; [reflexivity|].
  apply (next_prev_wraparound noWavRuntime s 4 3); [reflexivity|reflexivity|lia|lia].
Defined.

Lemma next_cycle_witness :
  let s := Final.handleTrackClick 2 Final.initial in
  Final.currentIdx (Nat.iter 1 (Final.handleNext noWavRuntime) s) = 3
  /\ Final.currentIdx (Nat.iter 3 (Final.handleNext noWavRuntime) s) = 1
  /\ Final.currentIdx (Nat.iter 3 (Final.handleNext noWavRuntime) s) <> 2
  /\ Final.currentIdx (Nat.iter 4 (Final.handleNext noWavRuntime) s) = 2.
Proof.
  intros s.
  destruct (next_cycle noWavRuntime s 4 1) as (H1 & _ & _);
    [reflexivity|lia|simpl; lia|].
  destruct (next_cycle noWavRuntime s 4 3) as (H3 & Hne & H4);
    [reflexivity|lia|simpl; lia|].
  split; [rewrite H1; reflexivity|]. split; [rewrite H3; reflexivity|].
  split; [apply Hne; lia|exact H4].
Defined.

(** ** The final revision: the current track *)

Section FinalCurrentTrack.

Variable canPlayType : string -> string.
Variable createObjectURL : Final.File -> string.

Abbreviation availableTracks := (Final.availableTracks canPlayType).
Abbreviation currentTrack := (Final.currentTrack canPlayType).
Abbreviation dispatch := (Final.dispatch canPlayType createObjectURL).
Abbreviation reachable := (Final.reachable canPlayType createObjectURL).
Abbreviation indexInv := (indexInv canPlayType).

Lemma len_pos_iff {A : Type} (l : list A) : 0 < JS.len l <-> l <> [].
Proof.
  unfold JS.len. destruct l; simpl; split; intros H; try lia; try discriminate.
  contradiction.
Qed.

Lemma len_nonneg {A : Type} (l : list A) : 0 <= JS.len l.
Proof. unfold JS.len. lia. Qed.

Lemma indexInv_same (s s' : Final.State) :
  Final.currentIdx s' = Final.currentIdx s ->
  Final.userTracks s' = Final.userTracks s ->
  indexInv s -> indexInv s'.
Proof.
  unfold indexInv, Final.availableTracks, Final.allTracks.
  intros -> ->. trivial.
Qed.

Lemma syncGains_frame (s : Final.State) :
  Final.currentIdx (Final.syncGains s) = Final.currentIdx s
  /\ Final.userTracks (Final.syncGains s) = Final.userTracks s.
Proof.
  unfold Final.syncGains.
  destruct (Final.eqNodes (Final.webAudio s)) as [nodes|]; [|split; reflexivity].
  destruct (List.length nodes =? 3)%nat; [|split; reflexivity].
  destruct (Final.bandGains s); split; reflexivity.
Qed.

Lemma setupGraph_frame (s : Final.State) :
  Final.currentIdx (Final.setupGraph s) = Final.currentIdx s
  /\ Final.userTracks (Final.setupGraph s) = Final.userTracks s.
Proof.
  unfold Final.setupGraph.
  destruct (Final.eqNodes (Final.webAudio s)) as [nodes|]; [|split; reflexivity].
  destruct (Final.context (Final.webAudio s)); split; reflexivity.
Qed.

Lemma sliderOnChange_frame (idx : nat) (nv : Z) (s : Final.State) :
  Final.currentIdx (Final.sliderOnChange idx nv s) = Final.currentIdx s
  /\ Final.userTracks (Final.sliderOnChange idx nv s) = Final.userTracks s.
Proof.
  unfold Final.sliderOnChange.
  destruct (Final.eqNodes (Final.webAudio s)) as [nodes|]; [|split; reflexivity].
  destruct (idx <? List.length nodes)%nat; split; reflexivity.
Qed.

(** Filtering by playability only looks at the sources. *)
Lemma filter_playable_sources (l1 l2 : list Track) :
  map src l1 = map src l2 ->
  map src (filter (playable canPlayType) l1) =
  map src (filter (playable canPlayType) l2).
Proof.
  revert l2. induction l1 as [|a l1 IH]; intros [|b l2] H; simpl in H;
    try discriminate; [reflexivity|].
  injection H as Hab Hrest. specialize (IH _ Hrest). simpl.
  assert (Hp : playable canPlayType a = playable canPlayType b)
    by (unfold playable; rewrite Hab; reflexivity).
  rewrite Hp. destruct (playable canPlayType b); simpl; congruence.
Qed.

Lemma setFakeDuration_sources (measured : Z) (s : Final.State) :
  map src (Final.userTracks (Final.setFakeDurationIfMissing canPlayType measured s)) =
  map src (Final.userTracks s).
Proof.
  unfold Final.setFakeDurationIfMissing.
  destruct (currentTrack s) as [cur|]; [|reflexivity].
  case_if; [|reflexivity].
  simpl. rewrite map_map. apply map_ext. intros ut.
  case_if; reflexivity.
Qed.

Lemma setFakeDuration_currentIdx (measured : Z) (s : Final.State) :
  Final.currentIdx (Final.setFakeDurationIfMissing canPlayType measured s) =
  Final.currentIdx s.
Proof.
  unfold Final.setFakeDurationIfMissing.
  destruct (currentTrack s) as [cur|]; [|reflexivity].
  case_if; reflexivity.
Qed.

Lemma setFakeDuration_available (measured : Z) (s : Final.State) :
  map src (availableTracks (Final.setFakeDurationIfMissing canPlayType measured s)) =
  map src (availableTracks s).
Proof.
  unfold Final.availableTracks, Final.allTracks.
  apply filter_playable_sources.
  rewrite !map_app, setFakeDuration_sources. reflexivity.
Qed.

Lemma indexInv_nextOf (n : Z) (s : Final.State) :
  indexInv s -> indexInv (Final.handleNextOf n s).
Proof.
  intros [Hlo Hne]. unfold indexInv.
  change (availableTracks (Final.handleNextOf n s)) with (availableTracks s).
  change (Final.currentIdx (Final.handleNextOf n s))
    with (getNextTrackIdx (Final.currentIdx s) 1 n).
  unfold getNextTrackIdx. cbv zeta.
  destruct (Final.currentIdx s + 1 <? 0) eqn:E1; [lia|].
  destruct (Final.currentIdx s + 1 >=? n) eqn:E2; split; intros; lia.
Qed.

Lemma indexInv_next (s : Final.State) :
  indexInv s -> indexInv (Final.handleNext canPlayType s).
Proof. apply indexInv_nextOf. Qed.

Lemma indexInv_prev (s : Final.State) :
  indexInv s -> indexInv (Final.handlePrev canPlayType s).
Proof.
  intros [Hlo Hne]. unfold indexInv.
  change (availableTracks (Final.handlePrev canPlayType s)) with (availableTracks s).
  change (Final.currentIdx (Final.handlePrev canPlayType s))
    with (getNextTrackIdx (Final.currentIdx s) (-1) (JS.len (availableTracks s))).
  pose proof (len_nonneg (availableTracks s)) as Hn.
  pose proof (len_pos_iff (availableTracks s)) as Hpos.
  unfold getNextTrackIdx. cbv zeta.
  destruct (Final.currentIdx s + -1 <? 0) eqn:E1.
  - split; [lia|]. intros H. apply Hpos in H. lia.
  - destruct (Final.currentIdx s + -1 >=? JS.len (availableTracks s)) eqn:E2;
      split; intros; lia.
Qed.

Lemma indexInv_fileChange (files : list Final.File) (s : Final.State) :
  indexInv s ->
  indexInv (Final.handleFileChange canPlayType createObjectURL files s).
Proof.
  intros H. unfold Final.handleFileChange. cbv zeta.
  destruct (JS.len files =? 0); [exact H|].
  destruct (JS.len (Final.mp3Files files) =? 0) eqn:E; [exact H|].
  apply Z.eqb_neq in E.
  pose proof (len_nonneg (Final.mp3Files files)) as Hk.
  pose proof (len_nonneg (availableTracks s)) as Hn.
  assert (0 <= JS.len (availableTracks s)
               + JS.len (map (Final.newTrack createObjectURL) (Final.mp3Files files)) - 1).
  { unfold JS.len in *. rewrite length_map. lia. }
  destruct (negb (JS.len files =? JS.len (Final.mp3Files files)));
    unfold indexInv; simpl; split; intros; lia.
Qed.

Lemma indexInv_dispatch (e : Final.Event) (s : Final.State) :
  Final.enabled canPlayType e s -> indexInv s -> indexInv (dispatch e s).
Proof.
  intros He H. destruct e; simpl.
  - unfold indexInv. simpl. split; intros; lia.
  - exact H.
  - apply indexInv_next, H.
  - apply indexInv_prev, H.
  - apply indexInv_nextOf, H.
  - exact H.
  - apply indexInv_fileChange. exact H.
  - exact H.
  - exact H.
  - destruct H as [Hlo Hne]. unfold indexInv.
    rewrite setFakeDuration_currentIdx. split; [assumption|].
    intros Hav. apply Hne. intros Hnil. apply Hav.
    pose proof (setFakeDuration_available measured s) as Hsrc.
    rewrite Hnil in Hsrc. simpl in Hsrc.
    apply map_eq_nil in Hsrc. assumption.
  - unfold Final.setGain.
    destruct (syncGains_frame (Final.sliderOnChange idx nv s)) as [H1 H2].
    destruct (sliderOnChange_frame idx nv s) as [H3 H4].
    eapply indexInv_same; [| |exact H]; congruence.
  - exact H.
  - exact H.
  - destruct (syncGains_frame (Final.setupGraph s)) as [H1 H2].
    destruct (setupGraph_frame s) as [H3 H4].
    eapply indexInv_same; [| |exact H]; congruence.
Qed.

Lemma reachable_indexInv (s : Final.State) : reachable s -> indexInv s.
Proof.
  induction 1 as [|s e Hs IH He].
  - unfold indexInv. simpl. split; intros; lia.
  - apply indexInv_dispatch; assumption.
Qed.

(** [arr[i % arr.length]] is the element at [i mod arr.length] when [i] is
    not negative. *)
Lemma index_rem_nonneg {A : Type} (arr : list A) (i : Z) :
  arr <> [] -> 0 <= i ->
  exists x,
    JS.index arr (JS.rem i (JS.len arr)) = Some x
    /\ nth_error arr (Z.to_nat (i mod JS.len arr)) = Some x.
Proof.
  intros Hne Hi. apply len_pos_iff in Hne.
  unfold JS.index, JS.rem.
  rewrite Z.rem_mod_nonneg by lia.
  pose proof (Z.mod_pos_bound i (JS.len arr) Hne) as Hb.
  destruct (i mod JS.len arr <? 0) eqn:E; [lia|].
  destruct (nth_error arr (Z.to_nat (i mod JS.len arr))) as [x|] eqn:En.
  - exists x. split; reflexivity.
  - apply nth_error_None in En. unfold JS.len in *. lia.
Qed.

(** C1.  In every reachable state: while some track is playable the current
    track is the playable track at position [currentIdx mod |PlayableSet|];
    when none is, the current track is [fallbackTrack]. *)
Theorem currentTrack_reachable (s : Final.State) :
  reachable s ->
  (availableTracks s <> [] ->
     exists t,
       currentTrack s = Some t
       /\ nth_error (availableTracks s)
            (Z.to_nat (Final.currentIdx s mod JS.len (availableTracks s))) = Some t)
  /\ (availableTracks s = [] -> currentTrack s = Some fallbackTrack).
Proof.
  intros Hr. apply reachable_indexInv in Hr as [_ Hnn].
  unfold Final.currentTrack, Final.hasValidTracks. split.
  - intros Hne. specialize (Hnn Hne).
    pose proof (proj2 (len_pos_iff _) Hne) as Hpos.
    apply Z.ltb_lt in Hpos. rewrite Hpos.
    apply index_rem_nonneg; assumption.
  - intros ->. reflexivity.
Qed.

End FinalCurrentTrack.

Lemma currentTrack_reachable_witness :
  let s := Final.dispatch noWavRuntime blobByName Final.Next
             (Final.dispatch noWavRuntime blobByName (Final.TrackClick 3) Final.initial) in
  Final.reachable noWavRuntime blobByName s
  /\ exists t,
       Final.currentTrack noWavRuntime s = Some t
       /\ nth_error (Final.availableTracks noWavRuntime s)
            (Z.to_nat (Final.currentIdx s mod JS.len (Final.availableTracks noWavRuntime s)))
          = Some t.
Proof.
  intros s.
  assert (Hr : Final.reachable noWavRuntime blobByName s).
  { apply Final.reach_step; [apply Final.reach_step|].
    - apply Final.reach_initial.
    - simpl. lia.
    - exact I. }
  split; [exact Hr|].
  apply (currentTrack_reachable noWavRuntime blobByName s Hr). discriminate.
Defined.

(** With nothing playable, stepping back from the first render leaves the
    index at -1; the track shown is the fallback. *)
Example index_minus_one_reachable :
  let s := Final.dispatch deafRuntime blobByName Final.Prev Final.initial in
  Final.reachable deafRuntime blobByName s
  /\ Final.currentIdx s = -1
  /\ Final.availableTracks deafRuntime s = []
  /\ Final.currentTrack deafRuntime s = Some fallbackTrack.
Proof.
  intros s. split; [|repeat split].
  apply Final.reach_step; [apply Final.reach_initial|exact I].
Qed.

(** Outside the reachable states: with playable tracks and a negative index,
    [%] gives a negative position and the lookup is [undefined]. *)
Example negative_index_undefined :
  Final.currentTrack noWavRuntime (Final.setCurrentIdx (fun _ => -1) Final.initial) = None.
Proof. reflexivity. Qed.

(** ** The final revision: the equalizer *)

Section FinalEqualizer.

Variable canPlayType : string -> string.
Variable createObjectURL : Final.File -> string.

Lemma nth_error_assign_same {A : Type} (arr : list A) (i : nat) (v : A) :
  (i < List.length arr)%nat -> nth_error (Final.assign arr i v) i = Some v.
Proof.
  revert i. induction arr as [|x arr IH]; intros [|i] H; simpl in *; try lia.
  - reflexivity.
  - apply IH. lia.
Qed.

Lemma length_assign {A : Type} (arr : list A) (i : nat) (v : A) :
  List.length (Final.assign arr i v) = List.length arr.
Proof.
  revert i. induction arr as [|x arr IH]; intros [|i]; simpl; try reflexivity.
  rewrite IH. reflexivity.
Qed.

Lemma Forall_assign {A : Type} (P : A -> Prop) (arr : list A) (i : nat) (v : A) :
  P v -> Forall P arr -> Forall P (Final.assign arr i v).
Proof.
  intros Hv. revert i. induction arr as [|x arr IH]; intros [|i] H; simpl.
  - constructor.
  - constructor.
  - inversion H; subst. constructor; assumption.
  - inversion H; subst. constructor; [assumption|]. apply IH. assumption.
Qed.

Lemma bandGains_nth (s : Final.State) (g : list Z) (idx : nat) :
  Final.bandGains s = Some g -> (idx < 3)%nat ->
  nth_error g idx = nth_error (Final.eqBands s) idx
  /\ (3 <= List.length (Final.eqBands s))%nat.
Proof.
  unfold Final.bandGains.
  destruct (Final.eqBands s) as [|b [|m [|t rest]]]; try discriminate.
  intros [= <-] Hidx. split; [|simpl; lia].
  destruct idx as [|[|[|idx]]]; try lia; reflexivity.
Qed.

(** After the slider's handler and the effect that follows it, the gain of
    the filter is the value the slider reported. *)
Lemma setGain_applied (s : Final.State) (idx : nat) (db : Z) (nodes : list Z) :
  Final.eqNodes (Final.webAudio s) = Some nodes ->
  (idx < List.length nodes)%nat ->
  Final.appliedGain idx (Final.setGain idx db s) = Some db.
Proof.
  intros Hnodes Hidx.
  unfold Final.setGain, Final.sliderOnChange. rewrite Hnodes.
  apply Nat.ltb_lt in Hidx. rewrite Hidx. apply Nat.ltb_lt in Hidx.
  unfold Final.syncGains. cbn [Final.webAudio Final.eqNodes Final.setWebAudio].
  rewrite length_assign.
  destruct (List.length nodes =? 3)%nat eqn:E3.
  - apply Nat.eqb_eq in E3.
    match goal with |- context [Final.bandGains ?s1] =>
      destruct (Final.bandGains s1) as [g|] eqn:Eg end.
    + apply bandGains_nth with (idx := idx) in Eg as [Hnth Hlen]; [|lia].
      unfold Final.appliedGain.
      cbn [Final.webAudio Final.eqNodes Final.setWebAudio].
      rewrite Hnth. cbn [Final.eqBands Final.setWebAudio Final.setEqBands] in *.
      apply nth_error_assign_same. rewrite length_assign in Hlen. lia.
    + unfold Final.appliedGain.
      cbn [Final.webAudio Final.eqNodes Final.setWebAudio].
      apply nth_error_assign_same. assumption.
  - unfold Final.appliedGain.
    cbn [Final.webAudio Final.eqNodes Final.setWebAudio].
    apply nth_error_assign_same. assumption.
Qed.

Lemma setGain_band (s : Final.State) (idx : nat) (db : Z) :
  (idx < List.length (Final.eqBands s))%nat ->
  nth_error (Final.eqBands (Final.setGain idx db s)) idx = Some db.
Proof.
  intros Hidx. unfold Final.setGain.
  assert (Hb : forall s0, Final.eqBands (Final.syncGains s0) = Final.eqBands s0).
  { intros s0. unfold Final.syncGains.
    destruct (Final.eqNodes (Final.webAudio s0)) as [nodes|]; [|reflexivity].
    destruct (List.length nodes =? 3)%nat; [|reflexivity].
    destruct (Final.bandGains s0); reflexivity. }
  rewrite Hb. unfold Final.sliderOnChange.
  destruct (Final.eqNodes (Final.webAudio s)) as [nodes|];
    [destruct (idx <? List.length nodes)%nat|]; simpl;
    apply nth_error_assign_same; assumption.
Qed.

(** *** Gains of reachable states *)

Lemma bandGains_inRange (s : Final.State) (g : list Z) :
  Forall inRange (Final.eqBands s) -> Final.bandGains s = Some g ->
  Forall inRange g.
Proof.
  unfold Final.bandGains.
  destruct (Final.eqBands s) as [|b [|m [|t rest]]]; try discriminate.
  intros H [= <-].
  inversion H as [|? ? Hb Hrest]; subst.
  inversion Hrest as [|? ? Hm Hrest']; subst.
  inversion Hrest' as [|? ? Ht _]; subst.
  constructor; [assumption|]. constructor; [assumption|].
  constructor; [assumption|]. constructor.
Qed.

Lemma gainInv_syncGains (s : Final.State) :
  gainInv s -> gainInv (Final.syncGains s).
Proof.
  intros [Hb Hn]. unfold Final.syncGains.
  destruct (Final.eqNodes (Final.webAudio s)) as [nodes|] eqn:En;
    [|split; [assumption|rewrite En; discriminate]].
  destruct (List.length nodes =? 3)%nat;
    [|split; [assumption|rewrite En; intros ? [= <-]; auto]].
  destruct (Final.bandGains s) as [g|] eqn:Eg;
    [|split; [assumption|rewrite En; intros ? [= <-]; auto]].
  split; [assumption|]. simpl. intros ? [= <-].
  eapply bandGains_inRange; eassumption.
Qed.

Lemma gainInv_setupGraph (s : Final.State) :
  gainInv s -> gainInv (Final.setupGraph s).
Proof.
  intros H. pose proof H as [Hb Hn].
  assert (Hnew : gainInv (Final.setWebAudio
                            (Final.mkWebAudio true (Final.bandGains s)) s)).
  { split; [assumption|]. simpl. intros nodes Hg.
    eapply bandGains_inRange; eassumption. }
  unfold Final.setupGraph.
  destruct (Final.eqNodes (Final.webAudio s)) as [nodes|] eqn:En; [|exact Hnew].
  destruct (Final.context (Final.webAudio s)); [exact H|exact Hnew].
Qed.

Lemma gainInv_sliderOnChange (idx : nat) (nv : Z) (s : Final.State) :
  inRange nv -> gainInv s -> gainInv (Final.sliderOnChange idx nv s).
Proof.
  intros Hnv [Hb Hn]. unfold Final.sliderOnChange.
  destruct (Final.eqNodes (Final.webAudio s)) as [nodes|] eqn:En.
  - destruct (idx <? List.length nodes)%nat; split; simpl;
      try (apply Forall_assign; assumption).
    + intros ? [= <-]. apply Forall_assign; auto.
    + rewrite En. intros ? [= <-]. auto.
  - split; simpl; [apply Forall_assign; assumption|].
    rewrite En. discriminate.
Qed.

Lemma gainInv_dispatch (e : Final.Event) (s : Final.State) :
  Final.enabled canPlayType e s -> gainInv s ->
  gainInv (Final.dispatch canPlayType createObjectURL e s).
Proof.
  intros He H. destruct e; simpl; try exact H.
  - unfold Final.handleFileChange. cbv zeta.
    destruct (JS.len files =? 0); [exact H|].
    destruct (JS.len (Final.mp3Files files) =? 0); [exact H|].
    destruct (negb (JS.len files =? JS.len (Final.mp3Files files))); exact H.
  - unfold Final.setFakeDurationIfMissing.
    destruct (Final.currentTrack canPlayType s); [|exact H].
    case_if; exact H.
  - destruct He as [_ Hnv].
    apply gainInv_syncGains, gainInv_sliderOnChange; assumption.
  - apply gainInv_syncGains, gainInv_setupGraph, H.
Qed.

Lemma reachable_gainInv (s : Final.State) :
  Final.reachable canPlayType createObjectURL s -> gainInv s.
Proof.
  induction 1 as [|s e Hs IH He].
  - split; simpl; [|discriminate].
    repeat (constructor; [unfold inRange; lia|]). constructor.
  - apply gainInv_dispatch; assumption.
Qed.

(** The callback by itself: the band's state and the filter's gain both
    become the value it is handed; from a reachable state and a value within
    the slider's bounds every filter's gain is within [[-12, 12]]
    afterwards. *)
Lemma setGain_applies_value (s : Final.State) (idx : nat) (db : Z) (nodes : list Z) :
  Final.eqNodes (Final.webAudio s) = Some nodes ->
  (idx < List.length nodes)%nat ->
  (idx < List.length (Final.eqBands s))%nat ->
  Final.appliedGain idx (Final.setGain idx db s) = Some db
  /\ nth_error (Final.eqBands (Final.setGain idx db s)) idx = Some db
  /\ (Final.reachable canPlayType createObjectURL s -> -12 <= db <= 12 ->
      forall i g, Final.appliedGain i (Final.setGain idx db s) = Some g ->
                  -12 <= g <= 12).
Proof.
  intros Hnodes Hidx Hband.
  split; [exact (setGain_applied s idx db nodes Hnodes Hidx)|].
  split; [apply setGain_band; exact Hband|].
  intros Hr Hdb i g Hg.
  assert (Hinv : gainInv (Final.setGain idx db s)).
  { apply gainInv_syncGains, gainInv_sliderOnChange;
      [exact Hdb|apply reachable_gainInv, Hr]. }
  destruct Hinv as [_ Hn]. unfold Final.appliedGain in Hg.
  destruct (Final.eqNodes (Final.webAudio (Final.setGain idx db s)))
    as [nodes'|]; [|discriminate].
  apply nth_error_In in Hg.
  exact (proj1 (Forall_forall _ _) (Hn nodes' eq_refl) g Hg).
Qed.

End FinalEqualizer.

Example mounted_gains : Final.eqNodes (Final.webAudio mounted) = Some [0; 0; 0].
Proof. reflexivity. Qed.

Lemma mounted_reachable : Final.reachable noWavRuntime blobByName mounted.
Proof. apply Final.reach_step; [apply Final.reach_initial|exact I]. Qed.

Lemma setGain_applies_value_witness :
  Final.appliedGain 1 (Final.setGain 1 (-7) mounted) = Some (-7)
  /\ nth_error (Final.eqBands (Final.setGain 1 (-7) mounted)) 1 = Some (-7)
  /\ (forall i g, Final.appliedGain i (Final.setGain 1 (-7) mounted) = Some g ->
                  -12 <= g <= 12).
Proof.
  destruct (setGain_applies_value noWavRuntime blobByName mounted 1 (-7) [0; 0; 0])
    as (H1 & H2 & H3); [reflexivity|simpl; lia|simpl; lia|].
  split; [exact H1|]. split; [exact H2|].
  apply H3; [exact mounted_reachable|lia].
Defined.

(** The bound is the control's, not the callback's: called directly with
    20, a value the slider never reports, the callback would set the bass
    filter's gain to 20. *)
Lemma setGain_not_clamped :
  Final.appliedGain 0 (Final.setGain 0 20 mounted) = Some 20
  /\ ~ (forall (s : Final.State) (idx : nat) (db g : Z),
          Final.appliedGain idx (Final.setGain idx db s) = Some g ->
          -12 <= g <= 12).
Proof.
  split; [reflexivity|].
  intros H. specialize (H mounted 0%nat 20 20 eq_refl). lia.
Qed.

(** ** The final revision: de-duplication on append *)

Lemma includes_spec (x : string) (arr : list string) :
  Final.includes x arr = true <-> In x arr.
Proof.
  unfold Final.includes. rewrite existsb_exists. split.
  - intros (y & Hy & E). apply String.eqb_eq in E. subst. assumption.
  - intros H. exists x. split; [assumption|apply String.eqb_refl].
Qed.

Lemma appendUnique_unfold (newTracks prev : list Track) :
  Final.appendUnique newTracks prev = (prev ++ Final.uniqueNew newTracks prev)%list.
Proof. reflexivity. Qed.

Lemma uniqueNew_fresh (newTracks prev : list Track) (x : string) :
  In x (map src (Final.uniqueNew newTracks prev)) -> ~ In x (map src prev).
Proof.
  unfold Final.uniqueNew. rewrite in_map_iff. intros (t & <- & Ht).
  apply filter_In in Ht as [_ Ht]. apply negb_true_iff in Ht.
  intros Hin. apply includes_spec in Hin. congruence.
Qed.

(** Dropping tracks keeps their sources pairwise distinct. *)
Lemma sources_distinct_filter (keep : Track -> bool) (tracks : list Track) :
  NoDup (map src tracks) -> NoDup (map src (filter keep tracks)).
Proof.
  induction tracks as [|t rest IH]; simpl; intros Hd; [constructor|].
  apply NoDup_cons_iff in Hd as [Hfresh Hrest].
  destruct (keep t); [|exact (IH Hrest)].
  simpl. apply NoDup_cons; [|exact (IH Hrest)].
  intros Hin. apply Hfresh.
  apply in_map_iff in Hin as (u & Hu & Hin). apply filter_In in Hin as [Hin _].
  rewrite <- Hu. apply in_map. exact Hin.
Qed.

Lemma uniqueNew_all (newTracks prev : list Track) :
  (forall t, In t newTracks -> ~ In (src t) (map src prev)) ->
  Final.uniqueNew newTracks prev = newTracks.
Proof.
  intros H. unfold Final.uniqueNew. apply forallb_filter_id, forallb_forall.
  intros t Ht. apply negb_true_iff.
  destruct (Final.includes (src t) (map src prev)) eqn:E; [|reflexivity].
  apply includes_spec in E. exfalso. exact (H t Ht E).
Qed.

(** The updater on any batch of tracks: it never adds a track whose source
    one of the uploaded tracks already has, so such a source keeps its count.
    Sources stay pairwise distinct among the uploaded tracks provided those of
    the batch are pairwise distinct, and in the whole store provided also
    none of them is the source of a built-in track. *)
Lemma appendUnique_dedup (newTracks prev : list Track) :
  (forall x, In x (map src prev) ->
     sourceCount x (Final.appendUnique newTracks prev) = sourceCount x prev)
  /\ (NoDup (map src prev) -> NoDup (map src newTracks) ->
      NoDup (map src (Final.appendUnique newTracks prev)))
  /\ (NoDup (map src (Final.defaultTracks ++ prev)) -> NoDup (map src newTracks) ->
      (forall t, In t newTracks -> ~ In (src t) (map src Final.defaultTracks)) ->
      NoDup (map src (Final.defaultTracks ++ Final.appendUnique newTracks prev))).
Proof.
  rewrite appendUnique_unfold. split; [|split].
  - intros x Hx. unfold sourceCount. rewrite map_app, count_occ_app.
    rewrite (proj1 (count_occ_not_In string_dec (map src (Final.uniqueNew newTracks prev)) x)).
    + lia.
    + intros Hin. exact (uniqueNew_fresh _ _ _ Hin Hx).
  - intros Hprev Hnew. rewrite map_app. apply NoDup_app.
    + assumption.
    + apply sources_distinct_filter. assumption.
    + intros x Hx Hin. exact (uniqueNew_fresh _ _ _ Hin Hx).
  - intros Hstore Hnew Hfresh. rewrite app_assoc, map_app. apply NoDup_app.
    + assumption.
    + apply sources_distinct_filter. assumption.
    + intros x Hx Hin. rewrite map_app in Hx. apply in_app_or in Hx as [Hx|Hx].
      * apply in_map_iff in Hin as (t & <- & Ht).
        apply filter_In in Ht as [Ht _]. exact (Hfresh t Ht Hx).
      * exact (uniqueNew_fresh _ _ _ Hin Hx).
Qed.

Lemma appendUnique_dedup_witness :
  let prev := [uploaded "one" "blob:1"; uploaded "two" "blob:2"] in
  let batch := [uploaded "two again" "blob:2"; uploaded "three" "blob:3"] in
  In "blob:2" (map src batch)
  /\ sourceCount "blob:2" (Final.appendUnique batch prev) = 1%nat
  /\ NoDup (map src (Final.appendUnique batch prev))
  /\ NoDup (map src (Final.defaultTracks ++ Final.appendUnique batch prev)).
Proof.
  intros prev batch.
  destruct (appendUnique_dedup batch prev) as (Hcount & Huser & Hstore).
  split; [simpl; auto|]. split; [|split].
  - rewrite Hcount; [reflexivity|simpl; auto].
  - apply Huser; distinct_strings.
  - apply Hstore.
    + distinct_strings.
    + distinct_strings.
    + intros t Ht. simpl in Ht. simpl. intuition (subst; discriminate).
Defined.

(** The updater compares with the uploaded tracks only.  Handed a track that
    carries a built-in source, which no object URL is, it would append it: it
    is the freshness of object URLs that keeps built-in sources apart. *)
Lemma append_repeats_builtin_source :
  let t := uploaded "Copy" TESTED_MP3 in
  let s := Final.setUserTracks (Final.appendUnique [t]) Final.initial in
  In (src t) (map src (Final.allTracks Final.initial))
  /\ sourceCount (src t) (Final.allTracks Final.initial) = 1%nat
  /\ sourceCount (src t) (Final.allTracks s) = 2%nat
  /\ ~ NoDup (map src (Final.allTracks s)).
Proof.
  intros t s. split; [simpl; auto|]. split; [reflexivity|]. split; [reflexivity|].
  intros H. inversion H as [|? ? Hnotin _]; subst.
  apply Hnotin. simpl. auto 10.
Qed.

(** Nor does the updater compare the tracks of one batch with each other. *)
Example append_repeats_within_batch :
  map src (Final.appendUnique [uploaded "a" "blob:1"; uploaded "b" "blob:1"] [])
  = ["blob:1"; "blob:1"].
Proof. reflexivity. Qed.

(** ** The final revision: uploads *)

Lemma toLowerCase_app (a b : string) :
  JS.toLowerCase (a ++ b) = JS.toLowerCase a ++ JS.toLowerCase b.
Proof.
  induction a as [|c a IH]; simpl; [reflexivity|]. rewrite IH. reflexivity.
Qed.

Lemma toLowerCase_split (s a b : string) :
  JS.toLowerCase s = a ++ b ->
  exists s1 s2, s = s1 ++ s2 /\ JS.toLowerCase s1 = a /\ JS.toLowerCase s2 = b.
Proof.
  revert s. induction a as [|c a IH]; intros s H.
  - exists "", s. repeat split. exact H.
  - destruct s as [|d s]; simpl in H; [discriminate|].
    injection H as Hc Hrest.
    destruct (IH s Hrest) as (s1 & s2 & -> & H1 & H2).
    exists (String d s1), s2. simpl. rewrite Hc, H1. repeat split. exact H2.
Qed.

Lemma isMp3_spec (f : Final.File) :
  Final.isMp3 f = true <->
  Final.type f = "audio/mpeg" \/ hasMp3Suffix (Final.name f).
Proof.
  unfold Final.isMp3, hasMp3Suffix.
  rewrite orb_true_iff, andb_true_iff, String.eqb_eq, endsWith_spec, truthy_true_iff.
  split; (intros [H|H]; [left; exact H|right]).
  - destruct H as [_ [pre H]].
    apply toLowerCase_split in H as (s1 & s2 & H & _ & H2).
    exists s1, s2. split; assumption.
  - destruct H as (stem & ext & -> & H). split.
    + destruct stem; [|discriminate]. destruct ext; [discriminate|discriminate].
    + exists (JS.toLowerCase stem). rewrite toLowerCase_app, H. reflexivity.
Qed.

Example mp3_by_type : Final.isMp3 (Final.mkFile "audio/mpeg" "voice-memo") = true.
Proof. reflexivity. Qed.

Example mp3_by_name : Final.isMp3 (Final.mkFile "" "Live Set.MP3") = true.
Proof. reflexivity. Qed.

Example wav_rejected : Final.isMp3 (Final.mkFile "audio/wav" "take1.wav") = false.
Proof. reflexivity. Qed.

Lemma filter_nil_iff {A : Type} (p : A -> bool) (l : list A) :
  filter p l = [] <-> forall x, In x l -> p x = false.
Proof.
  induction l as [|a l IH]; simpl.
  - split; [intros _ x []|reflexivity].
  - destruct (p a) eqn:E; split.
    + discriminate.
    + intros H. specialize (H a (or_introl eq_refl)). congruence.
    + intros H x [<-|Hx]; [assumption|]. apply IH; assumption.
    + intros H. apply IH. intros x Hx. apply H. right. assumption.
Qed.

Lemma filter_shorter {A : Type} (p : A -> bool) (l : list A) :
  (exists x, In x l /\ p x = false) ->
  (List.length (filter p l) < List.length l)%nat.
Proof.
  intros (x & Hx & Hp). induction l as [|a l IH]; [contradiction|].
  simpl. pose proof (filter_length_le p l).
  destruct Hx as [->|Hx].
  - rewrite Hp. lia.
  - specialize (IH Hx). destruct (p a); simpl; lia.
Qed.

Section FinalUploads.

Variable canPlayType : string -> string.
Variable createObjectURL : Final.File -> string.

Abbreviation handleFileChange := (Final.handleFileChange canPlayType createObjectURL).
Abbreviation newTrack := (Final.newTrack createObjectURL).
Abbreviation availableTracks := (Final.availableTracks canPlayType).
Abbreviation currentTrack := (Final.currentTrack canPlayType).

Lemma len_zero_iff {A : Type} (l : list A) : (JS.len l =? 0) = true <-> l = [].
Proof.
  rewrite Z.eqb_eq. unfold JS.len. destruct l; simpl; split; intros H;
    try reflexivity; try lia; discriminate.
Qed.

Lemma len_zero_false {A : Type} (l : list A) : l <> [] -> (JS.len l =? 0) = false.
Proof.
  intros H. destruct (JS.len l =? 0) eqn:E; [|reflexivity].
  apply len_zero_iff in E. contradiction.
Qed.

(** The three outcomes of a non-empty batch. *)
Lemma handleFileChange_none (files : list Final.File) (s : Final.State) :
  files <> [] -> Final.mp3Files files = [] ->
  handleFileChange files s =
    Final.setFileInputValue "" (Final.setFileError Final.NoValidFiles
                                  (Final.setFileError "" s)).
Proof.
  intros Hne Hnone. unfold Final.handleFileChange. cbv zeta.
  rewrite (len_zero_false _ Hne), Hnone. reflexivity.
Qed.

Lemma handleFileChange_some (files : list Final.File) (s : Final.State) :
  Final.mp3Files files <> [] ->
  handleFileChange files s =
    Final.setCurrentIdx
      (fun _ => JS.len (availableTracks s)
                + JS.len (map newTrack (Final.mp3Files files)) - 1)
      (Final.setUserTracks
         (Final.appendUnique (map newTrack (Final.mp3Files files)))
         (if negb (JS.len files =? JS.len (Final.mp3Files files))
          then Final.setFileError Final.PartialRejection (Final.setFileError "" s)
          else Final.setFileError "" s)).
Proof.
  intros Hsome. unfold Final.handleFileChange. cbv zeta.
  assert (Hne : files <> []) by (intros ->; apply Hsome; reflexivity).
  rewrite (len_zero_false _ Hne), (len_zero_false _ Hsome). reflexivity.
Qed.

Lemma fresh_not_uploaded (files : list Final.File) (s : Final.State) :
  freshURLs createObjectURL files s ->
  forall t, In t (map newTrack (Final.mp3Files files)) ->
            ~ In (src t) (map src (Final.userTracks s)).
Proof.
  intros [_ Hfresh] t Ht Hin.
  apply in_map_iff in Ht as (f & <- & Hf).
  apply (Hfresh f Hf). unfold Final.allTracks. rewrite map_app.
  apply in_or_app. right. exact Hin.
Qed.

(** C5 (amended).  The admitted files are exactly those typed audio/mpeg or
    named with a ".mp3" suffix in any letter case.  For a batch that is not
    empty: if none is admitted the store is unchanged, the NoValidFiles
    message is set and the file input is cleared; if some but not all are
    admitted, the PartialRejection message is set and the admitted ones are
    appended, in order, each under the fresh object URL minted for it.  For an
    empty batch the handler returns right after clearing the previous
    message: the state is otherwise untouched and nothing is signalled. *)
Theorem upload_admission (files : list Final.File) (s : Final.State) :
  (forall f, In f (Final.mp3Files files) <->
             In f files /\ (Final.type f = "audio/mpeg" \/ hasMp3Suffix (Final.name f)))
  /\ (files = [] -> handleFileChange files s = Final.setFileError "" s)
  /\ (files <> [] -> Final.mp3Files files = [] ->
        Final.userTracks (handleFileChange files s) = Final.userTracks s
        /\ Final.allTracks (handleFileChange files s) = Final.allTracks s
        /\ Final.fileError (handleFileChange files s) = Final.NoValidFiles
        /\ Final.fileInputValue (handleFileChange files s) = "")
  /\ (Final.mp3Files files <> [] ->
      (exists f, In f files /\ Final.isMp3 f = false) ->
        Final.fileError (handleFileChange files s) = Final.PartialRejection
        /\ (freshURLs createObjectURL files s ->
            Final.userTracks (handleFileChange files s) =
              (Final.userTracks s ++ map newTrack (Final.mp3Files files))%list)).
Proof.
  split; [|split; [|split]].
  - intros f. unfold Final.mp3Files. rewrite filter_In, isMp3_spec. reflexivity.
  - intros ->. reflexivity.
  - intros Hne Hnone. rewrite handleFileChange_none by assumption.
    repeat split.
  - intros Hsome Hrej. rewrite handleFileChange_some by assumption.
    apply (filter_shorter Final.isMp3) in Hrej.
    assert (E : (JS.len files =? JS.len (Final.mp3Files files)) = false).
    { apply Z.eqb_neq. unfold JS.len, Final.mp3Files. lia. }
    rewrite E. split; [reflexivity|].
    intros Hfresh. simpl.
    rewrite appendUnique_unfold, uniqueNew_all; [reflexivity|].
    apply fresh_not_uploaded. exact Hfresh.
Qed.

End FinalUploads.

(** A state that carries the message of an earlier rejected batch. *)
Example selected_after_rejection :
  Final.fileError (Final.handleFileChange noWavRuntime blobByName wavBatch
                     (selected wavBatch)) = Final.NoValidFiles.
Proof. reflexivity. Qed.

Lemma upload_admission_witness :
  (let s := Final.handleFileChange noWavRuntime blobByName wavBatch (selected wavBatch) in
   Final.handleFileChange noWavRuntime blobByName [] s = Final.setFileError "" s
   /\ Final.fileError (Final.handleFileChange noWavRuntime blobByName [] s) = "")
  /\ (Final.fileInputValue (selected wavBatch) <> ""
      /\ Final.userTracks (Final.handleFileChange noWavRuntime blobByName wavBatch
                             (selected wavBatch)) = []
      /\ Final.fileError (Final.handleFileChange noWavRuntime blobByName wavBatch
                            (selected wavBatch)) = Final.NoValidFiles
      /\ Final.fileInputValue (Final.handleFileChange noWavRuntime blobByName wavBatch
                                 (selected wavBatch)) = "")
  /\ (Final.fileError (Final.handleFileChange noWavRuntime blobByName mixedBatch
                         (selected mixedBatch)) = Final.PartialRejection
      /\ Final.userTracks (Final.handleFileChange noWavRuntime blobByName mixedBatch
                             (selected mixedBatch))
         = [uploaded "one" "blob:one.mp3"]).
Proof.
  split; [|split].
  - intros s.
    destruct (upload_admission noWavRuntime blobByName [] s) as (_ & Hempty & _).
    rewrite (Hempty eq_refl). split; reflexivity.
  - split; [discriminate|].
    destruct (upload_admission noWavRuntime blobByName wavBatch (selected wavBatch))
      as (_ & _ & Hnone & _).
    destruct Hnone as (Hu & _ & He & Hv); [discriminate|reflexivity|].
    split; [exact Hu|]. split; [exact He|exact Hv].
  - destruct (upload_admission noWavRuntime blobByName mixedBatch (selected mixedBatch))
      as (_ & _ & _ & Hsome).
    destruct Hsome as [He Hu].
    + discriminate.
    + exists (Final.mkFile "text/plain" "notes.txt"). split; [simpl; auto|reflexivity].
    + split; [exact He|]. rewrite Hu; [reflexivity|].
      split; [distinct_strings|].
      intros f Hf. simpl in Hf. destruct Hf as [<-|[]].
      simpl. intuition discriminate.
Defined.

(** C5 as stated fails on the empty batch: no file is admissible, yet the
    handler returns before setting any message. *)
Lemma empty_batch_signals_nothing :
  Final.mp3Files [] = []
  /\ Final.fileError (Final.handleFileChange noWavRuntime blobByName [] mounted) = ""
  /\ ~ (forall files s,
          Final.mp3Files files = [] ->
          Final.fileError (Final.handleFileChange noWavRuntime blobByName files s)
          = Final.NoValidFiles).
Proof.
  split; [reflexivity|]. split; [reflexivity|].
  intros H. specialize (H [] mounted eq_refl). discriminate H.
Qed.

(** ** The final revision: the selection after an upload *)

Section FinalUploadSelection.

Variable canPlayType : string -> string.
Variable createObjectURL : Final.File -> string.

Abbreviation handleFileChange := (Final.handleFileChange canPlayType createObjectURL).
Abbreviation newTrack := (Final.newTrack createObjectURL).
Abbreviation availableTracks := (Final.availableTracks canPlayType).
Abbreviation currentTrack := (Final.currentTrack canPlayType).

Lemma filter_all {A : Type} (p : A -> bool) (l : list A) :
  (forall x, In x l -> p x = true) -> filter p l = l.
Proof.
  intros H. apply forallb_filter_id, forallb_forall. assumption.
Qed.

Lemma nth_error_last {A : Type} (l1 l2 : list A) (d : A) :
  l2 <> [] ->
  nth_error (l1 ++ l2) (List.length l1 + List.length l2 - 1) = Some (last l2 d).
Proof.
  intros Hne. destruct (exists_last Hne) as (l & a & ->).
  rewrite last_last, app_assoc, length_app. simpl.
  replace (List.length l1 + (List.length l + 1) - 1)%nat
    with (List.length (l1 ++ l)) by (rewrite length_app; lia).
  rewrite nth_error_app2 by lia. rewrite Nat.sub_diag. reflexivity.
Qed.

(** C10.  After a batch with [k >= 1] admitted files the index is the number
    of playable tracks before the append, plus [k], minus one, where [k]
    counts the admitted files before de-duplication.  If no new source is
    already among the uploaded tracks and every new source is playable, the
    current track is then the last track of the batch. *)
Theorem upload_selects_last (files : list Final.File) (s : Final.State) :
  Final.mp3Files files <> [] ->
  Final.currentIdx (handleFileChange files s) =
    JS.len (availableTracks s) + JS.len (Final.mp3Files files) - 1
  /\ ((forall t, In t (map newTrack (Final.mp3Files files)) ->
         ~ In (src t) (map src (Final.userTracks s))) ->
      (forall t, In t (map newTrack (Final.mp3Files files)) ->
         playable canPlayType t = true) ->
      currentTrack (handleFileChange files s) =
        Some (last (map newTrack (Final.mp3Files files)) fallbackTrack)).
Proof.
  intros Hsome. rewrite (handleFileChange_some canPlayType createObjectURL) by assumption.
  set (new := map newTrack (Final.mp3Files files)).
  assert (Hnew : new <> []).
  { unfold new. intros E. apply map_eq_nil in E. contradiction. }
  assert (Hk : JS.len new = JS.len (Final.mp3Files files)).
  { unfold new, JS.len. rewrite length_map. reflexivity. }
  split; [simpl; rewrite Hk; reflexivity|].
  intros Hfresh Hplay.
  match goal with |- currentTrack ?st = _ => set (s' := st) end.
  assert (Hav : availableTracks s' = (availableTracks s ++ new)%list).
  { unfold Final.availableTracks, Final.allTracks.
    replace (Final.userTracks s') with (Final.userTracks s ++ new)%list.
    - rewrite app_assoc, filter_app. f_equal. apply filter_all. assumption.
    - unfold s'. destruct (negb (JS.len files =? JS.len (Final.mp3Files files)));
        simpl; rewrite appendUnique_unfold, uniqueNew_all by assumption;
        reflexivity. }
  assert (Hidx : Final.currentIdx s' = JS.len (availableTracks s) + JS.len new - 1)
    by reflexivity.
  assert (Hpos : 0 < JS.len new) by (apply len_pos_iff; assumption).
  pose proof (len_nonneg (availableTracks s)) as Hn.
  unfold Final.currentTrack, Final.hasValidTracks. rewrite Hav, Hidx.
  assert (Hlen : JS.len (availableTracks s ++ new)
                 = JS.len (availableTracks s) + JS.len new).
  { unfold JS.len. rewrite length_app. lia. }
  rewrite Hlen.
  replace (0 <? JS.len (availableTracks s) + JS.len new) with true
    by (symmetry; apply Z.ltb_lt; lia).
  unfold JS.rem, JS.index. rewrite Z.rem_small by lia.
  replace (JS.len (availableTracks s) + JS.len new - 1 <? 0) with false
    by (symmetry; apply Z.ltb_ge; lia).
  replace (Z.to_nat (JS.len (availableTracks s) + JS.len new - 1))
    with (List.length (availableTracks s) + List.length new - 1)%nat
    by (unfold JS.len in *; lia).
  apply nth_error_last. assumption.
Qed.

End FinalUploadSelection.

Lemma upload_selects_last_witness :
  Final.currentIdx (Final.handleFileChange noWavRuntime blobByName twoSongs mounted) = 5
  /\ Final.currentTrack noWavRuntime
       (Final.handleFileChange noWavRuntime blobByName twoSongs mounted)
     = Some (uploaded "Second" "blob:Second.MP3").
Proof.
  destruct (upload_selects_last noWavRuntime blobByName twoSongs mounted)
    as [Hidx Htrack]; [discriminate|].
  split; [exact Hidx|].
  apply Htrack.
  - intros t Ht. simpl. tauto.
  - intros t Ht. simpl in Ht. destruct Ht as [<-|[<-|[]]]; reflexivity.
Defined.

(** ** The revision with shuffle and repeat *)

Section ShuffleRepeatFacts.

Variable canPlayType : string -> string.
Variable audioTracks : list Track.

Abbreviation availableTracks := (ShuffleRepeat.availableTracks canPlayType audioTracks).
Abbreviation currentTrack := (ShuffleRepeat.currentTrack canPlayType audioTracks).
Abbreviation handleNext := (ShuffleRepeat.handleNext audioTracks).
Abbreviation handleTrackEnd := (ShuffleRepeat.handleTrackEnd audioTracks).

(** C7.  With [repeat] on, the end of the track sets the position to 0, the
    play intent to true and leaves the index where it is; the audio element,
    when mounted, is rewound to 0 and asked to play. *)
Theorem handleTrackEnd_repeat (draws : list Z) (s : ShuffleRepeat.State) :
  ShuffleRepeat.repeat s = true ->
  exists s',
    handleTrackEnd draws s = Some s'
    /\ ShuffleRepeat.progress s' = 0
    /\ ShuffleRepeat.playing s' = true
    /\ ShuffleRepeat.currentIdx s' = ShuffleRepeat.currentIdx s
    /\ ShuffleRepeat.shuffle s' = ShuffleRepeat.shuffle s
    /\ ShuffleRepeat.repeat s' = true
    /\ ShuffleRepeat.audio s' =
         option_map (fun _ => ShuffleRepeat.mkAudio 0 false) (ShuffleRepeat.audio s).
Proof.
  intros Hrep. unfold ShuffleRepeat.handleTrackEnd. rewrite Hrep.
  eexists. split; [reflexivity|]. simpl. repeat split; try assumption.
  destruct (ShuffleRepeat.audio s); reflexivity.
Qed.



(** The loop ends as soon as a draw differs from the current index. *)
Lemma drawUntilDifferent_some (excl : Z) (draws : list Z) :
  (exists d, In d draws /\ d <> excl) ->
  exists n, ShuffleRepeat.drawUntilDifferent excl draws = Some n /\ n <> excl.
Proof.
  induction draws as [|d rest IH]; intros (x & Hin & Hx); [contradiction|].
  simpl. destruct (d =? excl) eqn:E.
  - apply Z.eqb_eq in E. destruct Hin as [->|Hin]; [contradiction|].
    apply IH. exists x. split; assumption.
  - apply Z.eqb_neq in E. exists d. split; [reflexivity|assumption].
Qed.



End ShuffleRepeatFacts.

Lemma handleTrackEnd_repeat_witness :
  exists s',
    ShuffleRepeat.handleTrackEnd ShuffleRepeat.audioTracks_shipped [] repeating = Some s'
    /\ ShuffleRepeat.progress s' = 0
    /\ ShuffleRepeat.playing s' = true
    /\ ShuffleRepeat.currentIdx s' = 1
    /\ ShuffleRepeat.shuffle s' = false
    /\ ShuffleRepeat.repeat s' = true
    /\ ShuffleRepeat.audio s' = Some (ShuffleRepeat.mkAudio 0 false).
Proof.
  exact (handleTrackEnd_repeat ShuffleRepeat.audioTracks_shipped [] repeating eq_refl).
Defined.



(** Even when the list itself is a singleton the position and the intent
    change. *)
Example handleNext_shuffle_single_track :
  ShuffleRepeat.handleNext [fallbackTrack] [] shufflingPaused
  = Some (ShuffleRepeat.mkState 0 true 0 true false false "" None).
Proof. reflexivity. Qed.

(** * Further properties of the code *)

(** ** [getNextTrackIdx]: bounds *)

Lemma getNextTrackIdx_in_range (idx dir length : Z) :
  0 < length -> 0 <= getNextTrackIdx idx dir length < length.
Proof.
  intros Hpos. unfold getNextTrackIdx. cbv zeta.
  destruct (idx + dir <? 0) eqn:E1; [lia|].
  destruct (idx + dir >=? length) eqn:E2; lia.
Qed.

(** X1.  On a list that is not empty, [getNextTrackIdx] answers a position of
    the list, whatever index and step it is given; on an empty list it
    answers -1 or 0. *)
Theorem getNextTrackIdx_bounds (idx dir length : Z) :
  (0 < length -> 0 <= getNextTrackIdx idx dir length < length)
  /\ (length = 0 ->
      getNextTrackIdx idx dir length = (if idx + dir <? 0 then -1 else 0)).
Proof.
  split; [apply getNextTrackIdx_in_range|].
  unfold getNextTrackIdx. cbv zeta.
  - intros ->.
    destruct (idx + dir <? 0) eqn:E1; [reflexivity|].
    destruct (idx + dir >=? 0) eqn:E2; [reflexivity|lia].
Qed.

Lemma getNextTrackIdx_bounds_witness :
  0 <= getNextTrackIdx 17 1 4 < 4
  /\ getNextTrackIdx 0 (-1) 0 = -1.
Proof.
  split.
  - apply (getNextTrackIdx_bounds 17 1 4). lia.
  - apply (getNextTrackIdx_bounds 0 (-1) 0). reflexivity.
Defined.

(** ** The final revision: transport, continued *)

Section FinalTransportMore.

Variable canPlayType : string -> string.

Abbreviation availableTracks := (Final.availableTracks canPlayType).
Abbreviation currentTrack := (Final.currentTrack canPlayType).
Abbreviation handleNext := (Final.handleNext canPlayType).
Abbreviation handlePrev := (Final.handlePrev canPlayType).

Lemma handlePrev_currentIdx (s : Final.State) :
  Final.currentIdx (handlePrev s) =
    getNextTrackIdx (Final.currentIdx s) (-1) (JS.len (availableTracks s)).
Proof. reflexivity. Qed.

Lemma handlePrev_available (s : Final.State) :
  availableTracks (handlePrev s) = availableTracks s.
Proof. reflexivity. Qed.

(** X2.  With the index within the playable tracks, stepping forward and
    then back, or back and then forward, returns to the same index. *)
Theorem next_prev_inverse (s : Final.State) :
  0 <= Final.currentIdx s < JS.len (availableTracks s) ->
  Final.currentIdx (handlePrev (handleNext s)) = Final.currentIdx s
  /\ Final.currentIdx (handleNext (handlePrev s)) = Final.currentIdx s.
Proof.
  intros Hrange.
  rewrite handlePrev_currentIdx, handleNext_currentIdx, handleNext_available.
  rewrite handleNext_currentIdx, handlePrev_currentIdx, handlePrev_available.
  set (n := JS.len (availableTracks s)) in *.
  set (i := Final.currentIdx s) in *.
  rewrite (getNextTrackIdx_next i n), (getNextTrackIdx_prev i n) by assumption.
  split.
  - destruct (i =? n - 1) eqn:E.
    + apply Z.eqb_eq in E. rewrite getNextTrackIdx_prev by lia. simpl. lia.
    + apply Z.eqb_neq in E. rewrite getNextTrackIdx_prev by lia.
      destruct (i + 1 =? 0) eqn:E0; lia.
  - destruct (i =? 0) eqn:E.
    + apply Z.eqb_eq in E. rewrite getNextTrackIdx_next by lia.
      rewrite Z.eqb_refl. lia.
    + apply Z.eqb_neq in E. rewrite getNextTrackIdx_next by lia.
      destruct (i - 1 =? n - 1) eqn:E0; lia.
Qed.

(** X3.  Whatever the index was (for instance past the end after an upload),
    once some track is playable a step forward or back leaves the index on a
    playable track, and the current track is the one at that index. *)
Theorem step_lands_in_range (s : Final.State) :
  availableTracks s <> [] ->
  (0 <= Final.currentIdx (handleNext s) < JS.len (availableTracks s)
   /\ currentTrack (handleNext s) =
        nth_error (availableTracks s) (Z.to_nat (Final.currentIdx (handleNext s))))
  /\ (0 <= Final.currentIdx (handlePrev s) < JS.len (availableTracks s)
      /\ currentTrack (handlePrev s) =
           nth_error (availableTracks s) (Z.to_nat (Final.currentIdx (handlePrev s)))).
Proof.
  intros Hne. apply len_pos_iff in Hne.
  assert (Hcur : forall s', availableTracks s' = availableTracks s ->
            0 <= Final.currentIdx s' < JS.len (availableTracks s) ->
            currentTrack s' =
              nth_error (availableTracks s) (Z.to_nat (Final.currentIdx s'))).
  { intros s' Hav Hr. unfold Final.currentTrack, Final.hasValidTracks.
    rewrite Hav. apply Z.ltb_lt in Hne. rewrite Hne.
    unfold JS.rem, JS.index. rewrite Z.rem_small by assumption.
    destruct (Final.currentIdx s' <? 0) eqn:E; [lia|reflexivity]. }
  split.
  - assert (Hr : 0 <= Final.currentIdx (handleNext s) < JS.len (availableTracks s)).
    { rewrite handleNext_currentIdx. apply getNextTrackIdx_in_range. assumption. }
    split; [exact Hr|]. apply Hcur; [reflexivity|exact Hr].
  - assert (Hr : 0 <= Final.currentIdx (handlePrev s) < JS.len (availableTracks s)).
    { rewrite handlePrev_currentIdx. apply getNextTrackIdx_in_range. assumption. }
    split; [exact Hr|]. apply Hcur; [reflexivity|exact Hr].
Qed.

(** X4.  A click on the row at position [idx] of the track list makes the
    playable track at that position the current one, from position 0 and
    with the intent to play. *)
Theorem trackClick_selects_row (s : Final.State) (idx : nat) (t : Track) :
  nth_error (availableTracks s) idx = Some t ->
  currentTrack (Final.handleTrackClick (Z.of_nat idx) s) = Some t
  /\ Final.progress (Final.handleTrackClick (Z.of_nat idx) s) = 0
  /\ Final.playing (Final.handleTrackClick (Z.of_nat idx) s) = true.
Proof.
  intros Hnth. split; [|split; reflexivity].
  assert (Hlt : (idx < List.length (availableTracks s))%nat)
    by (apply nth_error_Some; rewrite Hnth; discriminate).
  unfold Final.currentTrack, Final.hasValidTracks.
  change (availableTracks (Final.handleTrackClick (Z.of_nat idx) s))
    with (availableTracks s).
  change (Final.currentIdx (Final.handleTrackClick (Z.of_nat idx) s))
    with (Z.of_nat idx).
  replace (0 <? JS.len (availableTracks s)) with true
    by (symmetry; apply Z.ltb_lt; unfold JS.len; lia).
  unfold JS.rem, JS.index. rewrite Z.rem_small by (unfold JS.len; lia).
  destruct (Z.of_nat idx <? 0) eqn:E; [lia|].
  rewrite Nat2Z.id. exact Hnth.
Qed.

(** X5.  Play/pause is its own inverse: two presses give back the state,
    and one press changes nothing but the play intent. *)
Theorem playPause_involution (s : Final.State) :
  Final.handlePlayPause (Final.handlePlayPause s) = s
  /\ Final.playing (Final.handlePlayPause s) = negb (Final.playing s)
  /\ Final.currentIdx (Final.handlePlayPause s) = Final.currentIdx s
  /\ Final.progress (Final.handlePlayPause s) = Final.progress s
  /\ currentTrack (Final.handlePlayPause s) = currentTrack s.
Proof.
  destruct s. unfold Final.handlePlayPause, Final.setPlaying. simpl.
  rewrite negb_involutive. repeat split.
Qed.

End FinalTransportMore.

Lemma next_prev_inverse_witness :
  let s := Final.handleTrackClick 3 Final.initial in
  Final.currentIdx (Final.handlePrev noWavRuntime (Final.handleNext noWavRuntime s)) = 3
  /\ Final.currentIdx (Final.handleNext noWavRuntime (Final.handlePrev noWavRuntime s)) = 3.
Proof.
  intros s. apply (next_prev_inverse noWavRuntime s). simpl. unfold JS.len. simpl. lia.
Defined.

Lemma step_lands_in_range_witness :
  let s := Final.handleTrackClick 9 Final.initial in
  Final.currentIdx (Final.handleNext noWavRuntime s) = 0
  /\ Final.currentTrack noWavRuntime (Final.handleNext noWavRuntime s)
     = nth_error Final.defaultTracks 0
  /\ Final.currentIdx (Final.handlePrev noWavRuntime s) = 0.
Proof.
  intros s.
  destruct (step_lands_in_range noWavRuntime s) as [[_ Hn] _]; [discriminate|].
  split; [reflexivity|]. split; [exact Hn|reflexivity].
Defined.

Lemma trackClick_selects_row_witness :
  Final.currentTrack noWavRuntime (Final.handleTrackClick 2 Final.initial)
    = nth_error Final.defaultTracks 2
  /\ Final.progress (Final.handleTrackClick 2 Final.initial) = 0
  /\ Final.playing (Final.handleTrackClick 2 Final.initial) = true.
Proof.
  destruct (nth_error Final.defaultTracks 2) as [t|] eqn:E; [|discriminate].
  apply (trackClick_selects_row noWavRuntime Final.initial 2 t). exact E.
Defined.

(** ** [formatTime] *)

Lemma digits_no_colon (d : uint) :
  JS.contains ":" (NilEmpty.string_of_uint d) = false.
Proof. induction d; simpl; try reflexivity; assumption. Qed.

Lemma toString_no_colon (z : Z) : JS.contains ":" (toString z) = false.
Proof.
  unfold toString, NilZero.string_of_int, NilZero.string_of_uint.
  destruct (Z.to_int z) as [d|d]; destruct d; simpl;
    try reflexivity; apply digits_no_colon.
Qed.

Lemma parseInt_toString (z : Z) : parseInt (toString z) = Some z.
Proof.
  unfold parseInt, toString. rewrite NilZero.isi.
  - simpl. rewrite DecimalZ.of_to. reflexivity.
  - destruct z; simpl; try discriminate.
    intros [= H]. exact (DecimalPos.Unsigned.to_uint_nonnil _ H).
  - destruct z; simpl; try discriminate.
    intros [= H]. exact (DecimalPos.Unsigned.to_uint_nonnil _ H).
Qed.

(** The seconds field: two characters that read back as the seconds. *)
Lemma seconds_field (s : Z) :
  0 <= s < 60 ->
  String.length (padStart 2 "0" (toString s)) = 2%nat
  /\ parseInt (padStart 2 "0" (toString s)) = Some s.
Proof.
  intros Hs.
  assert (Hall : forallb
            (fun n => let f := padStart 2 "0" (toString (Z.of_nat n)) in
                      (String.length f =? 2)%nat
                      && match parseInt f with
                         | Some v => v =? Z.of_nat n
                         | None => false
                         end)
            (seq 0 60) = true) by (vm_compute; reflexivity).
  rewrite forallb_forall in Hall.
  specialize (Hall (Z.to_nat s)).
  rewrite Z2Nat.id in Hall by lia. cbv zeta in Hall.
  destruct (andb_prop _ _ (Hall (proj2 (in_seq 60 0 (Z.to_nat s)) ltac:(lia))))
    as [Hlen Hparse].
  split; [apply Nat.eqb_eq; exact Hlen|].
  destruct (parseInt (padStart 2 "0" (toString s))) as [v|]; [|discriminate].
  apply Z.eqb_eq in Hparse. congruence.
Qed.

Lemma append_inv_head (a b c : string) : a ++ b = a ++ c -> b = c.
Proof.
  induction a as [|x a IH]; simpl; intros H; [assumption|].
  injection H as H. apply IH. assumption.
Qed.

Lemma split_label (m rest : string) :
  JS.contains ":" m = false ->
  JS.split ":" (m ++ ":" ++ rest) = m :: JS.split ":" rest.
Proof.
  intros H. change (m ++ ":" ++ rest) with (m ++ String ":" rest).
  rewrite split_app, (split_no_sep _ _ H). reflexivity.
Qed.

Lemma formatTime_safe (secs : Z) :
  0 <= secs < 9007199254740992 ->
  formatTime (Num secs)
  = Some (toString (secs / 60) ++ ":" ++ padStart 2 "0" (toString (secs mod 60))).
Proof.
  intros Hsecs. unfold formatTime, safeInteger.
  replace (Z.abs secs <? 9007199254740992) with true
    by (symmetry; apply Z.ltb_lt; lia).
  cbv zeta. unfold JS.rem. rewrite Z.rem_mod_nonneg by lia. reflexivity.
Qed.

Lemma split_label_cons (m rest : string) :
  JS.contains ":" m = false ->
  JS.split ":" (m ++ String ":" rest) = m :: JS.split ":" rest.
Proof. apply split_label. Qed.

(** X6.  For a whole number of seconds from 0 up to the safe integers (below
    [2 ^ 53]) the label is the minutes in decimal, a colon, and exactly two
    characters that read back as the seconds below sixty; it is never the
    "--:--" of [NaN]; a [null] duration is shown as "0:00". *)
Theorem formatTime_shape (secs : Z) :
  0 <= secs < 9007199254740992 ->
  exists ss,
    formatTime (Num secs) = Some (toString (secs / 60) ++ ":" ++ ss)
    /\ String.length ss = 2%nat
    /\ parseInt ss = Some (secs mod 60)
    /\ formatTime (Num secs) <> formatTime NaN
    /\ formatTime (ofDuration None) = Some "0:00".
Proof.
  intros Hsecs.
  destruct (seconds_field (secs mod 60)) as [Hlen Hparse];
    [apply Z.mod_pos_bound; lia|].
  exists (padStart 2 "0" (toString (secs mod 60))).
  rewrite (formatTime_safe secs Hsecs).
  split; [reflexivity|]. split; [exact Hlen|]. split; [exact Hparse|].
  split; [|reflexivity].
  intros H. change (formatTime NaN) with (Some "--:--") in H. injection H as H.
  apply (f_equal (JS.split ":")) in H.
  first [rewrite split_label in H by apply toString_no_colon
        |rewrite split_label_cons in H by apply toString_no_colon].
  simpl in H. injection H as H _.
  pose proof (parseInt_toString (secs / 60)) as Hp.
  rewrite H in Hp. discriminate Hp.
Qed.

(** X7.  Two different whole times from 0 up to the safe integers never have
    the same label. *)
Theorem formatTime_injective (a b : Z) :
  0 <= a < 9007199254740992 -> 0 <= b < 9007199254740992 ->
  a <> b ->
  formatTime (Num a) <> formatTime (Num b).
Proof.
  intros Ha Hb Hab H. apply Hab.
  rewrite (formatTime_safe a Ha), (formatTime_safe b Hb) in H.
  injection H as H.
  pose proof (f_equal (JS.split ":") H) as Hs.
  first [rewrite !split_label in Hs by apply toString_no_colon
        |rewrite !split_label_cons in Hs by apply toString_no_colon].
  injection Hs as Hm _.
  assert (Hdiv : a / 60 = b / 60).
  { pose proof (parseInt_toString (a / 60)) as Hp.
    rewrite Hm, parseInt_toString in Hp. congruence. }
  rewrite Hm in H. apply append_inv_head in H.
  injection H as H.
  assert (Hmod : a mod 60 = b mod 60).
  { destruct (seconds_field (a mod 60)) as [_ Hpa]; [apply Z.mod_pos_bound; lia|].
    destruct (seconds_field (b mod 60)) as [_ Hpb]; [apply Z.mod_pos_bound; lia|].
    rewrite H in Hpa. congruence. }
  rewrite (Z.div_mod a 60), (Z.div_mod b 60) by lia. congruence.
Qed.

Example formatTime_demo :
  formatTime (Num 347) = Some "5:47" /\ formatTime (Num 60) = Some "1:00"
  /\ formatTime (Num 5) = Some "0:05" /\ formatTime (Num 3600) = Some "60:00".
Proof. repeat split. Qed.

(** Past the safe integers the doubles round, and no label is claimed. *)
Example formatTime_unsafe :
  formatTime (Num 1000000000000000000000) = None.
Proof. reflexivity. Qed.

Lemma formatTime_shape_witness :
  exists ss,
    formatTime (Num 201) = Some (toString (201 / 60) ++ ":" ++ ss)
    /\ String.length ss = 2%nat
    /\ parseInt ss = Some (201 mod 60)
    /\ formatTime (Num 201) <> formatTime NaN
    /\ formatTime (ofDuration None) = Some "0:00".
Proof. apply (formatTime_shape 201). lia. Defined.

Lemma formatTime_injective_witness :
  formatTime (Num 59) = Some "0:59"
  /\ formatTime (Num 60) = Some "1:00"
  /\ formatTime (Num 59) <> formatTime (Num 60).
Proof.
  split; [reflexivity|]. split; [reflexivity|].
  apply (formatTime_injective 59 60); lia.
Defined.

(** ** Titles of uploaded tracks *)

Lemma length_toLowerCase (s : string) :
  String.length (JS.toLowerCase s) = String.length s.
Proof. induction s as [|c s IH]; simpl; [reflexivity|]. rewrite IH. reflexivity. Qed.

Lemma length_append (a b : string) :
  String.length (a ++ b) = (String.length a + String.length b)%nat.
Proof. induction a as [|c a IH]; simpl; [reflexivity|]. rewrite IH. reflexivity. Qed.

Lemma dropMp3Suffix_cons (c : ascii) (r : string) :
  JS.dropMp3Suffix (String c r) =
    if String.eqb (JS.toLowerCase (String c r)) ".mp3" then ""
    else String c (JS.dropMp3Suffix r).
Proof. reflexivity. Qed.

Lemma dropMp3Suffix_strips (stem ext : string) :
  JS.toLowerCase ext = ".mp3" -> JS.dropMp3Suffix (stem ++ ext) = stem.
Proof.
  intros Hext. induction stem as [|c stem IH].
  - destruct ext as [|e ext]; [discriminate|].
    simpl append. rewrite dropMp3Suffix_cons, Hext. reflexivity.
  - simpl append. rewrite dropMp3Suffix_cons, IH.
    destruct (String.eqb (JS.toLowerCase (String c (stem ++ ext))) ".mp3") eqn:E;
      [|reflexivity].
    apply String.eqb_eq in E. apply (f_equal String.length) in E.
    rewrite length_toLowerCase in E. simpl in E.
    rewrite length_append, <- (length_toLowerCase ext), Hext in E. simpl in E. lia.
Qed.

Lemma dropMp3Suffix_keeps (n : string) :
  ~ hasMp3Suffix n -> JS.dropMp3Suffix n = n.
Proof.
  induction n as [|c r IH]; intros Hno.
  - reflexivity.
  - rewrite dropMp3Suffix_cons.
    destruct (String.eqb (JS.toLowerCase (String c r)) ".mp3") eqn:E.
    + exfalso. apply Hno. exists "", (String c r). split; [reflexivity|].
      apply String.eqb_eq. exact E.
    + rewrite IH; [reflexivity|].
      intros (stem & ext & -> & Hext). apply Hno.
      exists (String c stem), ext. split; [reflexivity|exact Hext].
Qed.

(** X8.  The title of an uploaded track is the file name without its
    ".mp3" suffix (in any letter case); a name without that suffix, such as
    that of a file admitted for its type, is the title as it is; an earlier
    ".mp3" inside the name stays. *)
Theorem upload_title (createObjectURL : Final.File -> string) (f : Final.File) :
  (forall stem ext, Final.name f = stem ++ ext -> JS.toLowerCase ext = ".mp3" ->
     title (Final.newTrack createObjectURL f) = stem)
  /\ (~ hasMp3Suffix (Final.name f) ->
      title (Final.newTrack createObjectURL f) = Final.name f).
Proof.
  split.
  - intros stem ext Hname Hext. simpl. rewrite Hname.
    apply dropMp3Suffix_strips. exact Hext.
  - intros Hno. simpl. apply dropMp3Suffix_keeps. exact Hno.
Qed.

Lemma upload_title_witness :
  title (Final.newTrack blobByName (Final.mkFile "" "Demo.mp3 (final).MP3"))
    = "Demo.mp3 (final)"
  /\ title (Final.newTrack blobByName (Final.mkFile "audio/mpeg" "voice-memo"))
     = "voice-memo".
Proof.
  split.
  - apply (upload_title blobByName (Final.mkFile "" "Demo.mp3 (final).MP3"))
      with (ext := ".MP3"); reflexivity.
  - apply (upload_title blobByName (Final.mkFile "audio/mpeg" "voice-memo")).
    intros (stem & ext & Hname & Hext). simpl in Hname.
    assert (Hends : JS.endsWith (JS.toLowerCase "voice-memo") ".mp3" = true).
    { apply endsWith_spec. exists (JS.toLowerCase stem).
      rewrite Hname, toLowerCase_app, Hext. reflexivity. }
    discriminate Hends.
Defined.

(** ** The store only grows *)

Section FinalStore.

Variable canPlayType : string -> string.
Variable createObjectURL : Final.File -> string.

Abbreviation availableTracks := (Final.availableTracks canPlayType).
Abbreviation handleFileChange := (Final.handleFileChange canPlayType createObjectURL).
Abbreviation dispatch := (Final.dispatch canPlayType createObjectURL).

Lemma prefixOf_refl {A : Type} (l : list A) : prefixOf l l.
Proof. exists []. symmetry. apply app_nil_r. Qed.

Lemma prefixOf_eq {A : Type} (l1 l2 : list A) : l1 = l2 -> prefixOf l1 l2.
Proof. intros ->. apply prefixOf_refl. Qed.

(** What an upload does to the uploaded tracks: nothing, or the
    de-duplicating append of the admitted files. *)
Lemma handleFileChange_userTracks (files : list Final.File) (s : Final.State) :
  Final.userTracks (handleFileChange files s) =
    if JS.len (Final.mp3Files files) =? 0 then Final.userTracks s
    else Final.appendUnique (map (Final.newTrack createObjectURL) (Final.mp3Files files))
                            (Final.userTracks s).
Proof.
  unfold Final.handleFileChange. cbv zeta.
  destruct (JS.len files =? 0) eqn:E0.
  - apply len_zero_iff in E0. subst files. reflexivity.
  - destruct (JS.len (Final.mp3Files files) =? 0); [reflexivity|].
    destruct (negb (JS.len files =? JS.len (Final.mp3Files files))); reflexivity.
Qed.

Lemma dispatch_userTracks (e : Final.Event) (s : Final.State) :
  (exists added, Final.userTracks (dispatch e s) = (Final.userTracks s ++ added)%list)
  \/ map src (Final.userTracks (dispatch e s)) = map src (Final.userTracks s).
Proof.
  destruct e; simpl; try (right; reflexivity).
  - left. rewrite handleFileChange_userTracks. simpl.
    destruct (JS.len (Final.mp3Files files) =? 0).
    + exists []. symmetry. apply app_nil_r.
    + rewrite appendUnique_unfold. eexists. reflexivity.
  - right. apply setFakeDuration_sources.
  - right. unfold Final.setGain.
    rewrite (proj2 (syncGains_frame _)), (proj2 (sliderOnChange_frame _ _ _)).
    reflexivity.
  - right. rewrite (proj2 (syncGains_frame _)), (proj2 (setupGraph_frame _)).
    reflexivity.
Qed.

(** X9.  No event removes, reorders or re-sources an uploaded track, or moves
    a playable one: after any event the sources of the uploaded tracks, and
    those of the playable tracks, continue the lists they were before. *)
Theorem store_append_only (e : Final.Event) (s : Final.State) :
  prefixOf (map src (Final.userTracks s)) (map src (Final.userTracks (dispatch e s)))
  /\ prefixOf (map src (availableTracks s)) (map src (availableTracks (dispatch e s))).
Proof.
  destruct (dispatch_userTracks e s) as [[added Hadd]|Hsrc].
  - split.
    + rewrite Hadd, map_app. eexists. reflexivity.
    + assert (Hav : availableTracks (dispatch e s)
                    = (availableTracks s ++ filter (playable canPlayType) added)%list).
      { unfold Final.availableTracks at 1. unfold Final.allTracks.
        rewrite Hadd, app_assoc, filter_app. reflexivity. }
      rewrite Hav, map_app. eexists. reflexivity.
  - split; [apply prefixOf_eq; symmetry; exact Hsrc|].
    apply prefixOf_eq. unfold Final.availableTracks, Final.allTracks.
    apply filter_playable_sources. rewrite !map_app, Hsrc. reflexivity.
Qed.

(** X10.  An upload adds at most as many tracks as it admits, and never
    removes one; when no admitted file's URL is already uploaded it adds
    exactly that many. *)
Theorem upload_growth (files : list Final.File) (s : Final.State) :
  (List.length (Final.userTracks s)
     <= List.length (Final.userTracks (handleFileChange files s))
     <= List.length (Final.userTracks s) + List.length (Final.mp3Files files))%nat
  /\ ((forall f, In f (Final.mp3Files files) ->
         ~ In (createObjectURL f) (map src (Final.userTracks s))) ->
      List.length (Final.userTracks (handleFileChange files s))
      = (List.length (Final.userTracks s) + List.length (Final.mp3Files files))%nat).
Proof.
  rewrite handleFileChange_userTracks.
  destruct (JS.len (Final.mp3Files files) =? 0) eqn:E.
  - apply len_zero_iff in E. rewrite E. simpl. split; [lia|intros _; lia].
  - rewrite appendUnique_unfold, length_app. split.
    + pose proof (filter_length_le
                    (fun t => negb (Final.includes (src t) (map src (Final.userTracks s))))
                    (map (Final.newTrack createObjectURL) (Final.mp3Files files))) as Hle.
      rewrite length_map in Hle. unfold Final.uniqueNew. cbv zeta. lia.
    + intros Hfresh. rewrite uniqueNew_all, length_map; [reflexivity|].
      intros t Ht. apply in_map_iff in Ht as (f & <- & Hf). simpl. apply Hfresh, Hf.
Qed.

(** X11.  A batch in which every file is admitted is taken silently: the
    message of an earlier rejection is cleared, the file input keeps its
    value, and the whole batch goes through the append. *)
Theorem upload_all_admitted (files : list Final.File) (s : Final.State) :
  files <> [] ->
  (forall f, In f files -> Final.isMp3 f = true) ->
  Final.fileError (handleFileChange files s) = ""
  /\ Final.fileInputValue (handleFileChange files s) = Final.fileInputValue s
  /\ Final.userTracks (handleFileChange files s) =
       Final.appendUnique (map (Final.newTrack createObjectURL) files)
                          (Final.userTracks s).
Proof.
  intros Hne Hall.
  assert (Hmp3 : Final.mp3Files files = files) by (apply filter_all; exact Hall).
  rewrite (handleFileChange_some canPlayType createObjectURL)
    by (rewrite Hmp3; exact Hne).
  rewrite Hmp3, Z.eqb_refl. repeat split.
Qed.

End FinalStore.

(** X12.  The append is idempotent: appending the same batch of tracks a
    second time adds nothing. *)
Theorem appendUnique_idempotent (batch prev : list Track) :
  Final.appendUnique batch (Final.appendUnique batch prev)
  = Final.appendUnique batch prev.
Proof.
  rewrite (appendUnique_unfold batch (Final.appendUnique batch prev)).
  replace (Final.uniqueNew batch (Final.appendUnique batch prev)) with (@nil Track);
    [apply app_nil_r|].
  symmetry. apply filter_nil_iff. intros t Ht. apply negb_false_iff.
  apply includes_spec. rewrite appendUnique_unfold, map_app. apply in_or_app.
  destruct (Final.includes (src t) (map src prev)) eqn:E.
  - left. apply includes_spec. exact E.
  - right. apply in_map. unfold Final.uniqueNew. cbv zeta.
    apply filter_In. split; [exact Ht|]. rewrite E. reflexivity.
Qed.

Lemma upload_growth_witness :
  List.length (Final.userTracks (Final.handleFileChange noWavRuntime blobByName
                                   mixedBatch mounted)) = 1%nat.
Proof.
  destruct (upload_growth noWavRuntime blobByName mixedBatch mounted) as [_ Hexact].
  rewrite Hexact; [reflexivity|]. intros f Hf. simpl. tauto.
Defined.

Lemma upload_all_admitted_witness :
  let s := Final.handleFileChange noWavRuntime blobByName wavBatch (selected wavBatch) in
  Final.fileError s = Final.NoValidFiles
  /\ Final.fileError (Final.handleFileChange noWavRuntime blobByName twoSongs s) = ""
  /\ List.length (Final.userTracks
                    (Final.handleFileChange noWavRuntime blobByName twoSongs s)) = 2%nat.
Proof.
  intros s. split; [reflexivity|].
  destruct (upload_all_admitted noWavRuntime blobByName twoSongs s) as (He & _ & Hu).
  - discriminate.
  - intros f Hf. simpl in Hf. destruct Hf as [<-|[<-|[]]]; reflexivity.
  - rewrite He, Hu. split; reflexivity.
Defined.

(** ** When the player is disabled *)

Section FinalShell.

Variable canPlayType : string -> string.
Variable createObjectURL : Final.File -> string.

Abbreviation availableTracks := (Final.availableTracks canPlayType).
Abbreviation currentTrack := (Final.currentTrack canPlayType).
Abbreviation reachable := (Final.reachable canPlayType createObjectURL).

Lemma available_playable (s : Final.State) (t : Track) :
  In t (availableTracks s) -> canPlayAudioSrc canPlayType (Some (src t)) = true.
Proof.
  unfold Final.availableTracks. intros H. apply filter_In in H as [_ H]. exact H.
Qed.

(** The fallback is the first built-in track under another name: if no track
    is playable, neither is the fallback. *)
Lemma fallback_unplayable (s : Final.State) :
  availableTracks s = [] ->
  canPlayAudioSrc canPlayType (Some (src fallbackTrack)) = false.
Proof.
  intros Hnil.
  pose proof (proj1 (filter_nil_iff (playable canPlayType) (Final.allTracks s)) Hnil)
    as Hall.
  exact (Hall (nth 0 Final.defaultTracks fallbackTrack) (or_introl eq_refl)).
Qed.

(** X13.  In every reachable state [cannotPlayAny] is true exactly when no
    track is playable: a current track taken from the playable ones is
    playable, and the fallback used otherwise never is, since its source is
    that of the first built-in track.  So the shell is disabled exactly when
    no track is playable. *)
Theorem shell_disabled_iff_no_tracks (s : Final.State) :
  reachable s ->
  cannotPlayAny canPlayType s = Some (negb (Final.hasValidTracks canPlayType s))
  /\ shellDisabled canPlayType s = Some (negb (Final.hasValidTracks canPlayType s)).
Proof.
  intros Hr.
  assert (Hc : cannotPlayAny canPlayType s
               = Some (negb (Final.hasValidTracks canPlayType s))).
  { apply (reachable_indexInv canPlayType createObjectURL) in Hr as [_ Hnn].
    unfold cannotPlayAny, Final.currentTrack, Final.hasValidTracks.
    destruct (availableTracks s) as [|t0 rest] eqn:Eav.
    - change (0 <? JS.len (@nil Track)) with false. cbv iota.
      unfold option_map. rewrite (fallback_unplayable s Eav). reflexivity.
    - assert (Hne : t0 :: rest <> []) by discriminate.
      destruct (index_rem_nonneg (t0 :: rest) (Final.currentIdx s) Hne (Hnn Hne))
        as (t & Hcur & Hnth).
      replace (0 <? JS.len (t0 :: rest)) with true
        by (symmetry; apply Z.ltb_lt, len_pos_iff; exact Hne).
      rewrite Hcur. unfold option_map.
      apply nth_error_In in Hnth. rewrite <- Eav in Hnth.
      rewrite (available_playable s t Hnth). reflexivity. }
  split; [exact Hc|].
  unfold shellDisabled. rewrite Hc. simpl. rewrite orb_diag. reflexivity.
Qed.

(** X14.  The built-in tracks are playable all together or not at all: with
    MP3 support the playable tracks are the four built-in ones followed by
    the playable uploads, without it they are the playable uploads alone. *)
Theorem builtins_follow_mp3_support (s : Final.State) :
  availableTracks s =
    if JS.truthy (canPlayType "audio/mpeg")
    then (Final.defaultTracks ++ filter (playable canPlayType) (Final.userTracks s))%list
    else filter (playable canPlayType) (Final.userTracks s).
Proof.
  unfold Final.availableTracks, Final.allTracks. rewrite filter_app.
  assert (Hd : forall t, In t Final.defaultTracks ->
                 playable canPlayType t = JS.truthy (canPlayType "audio/mpeg")).
  { intros t Ht. simpl in Ht.
    destruct Ht as [<-|[<-|[<-|[<-|[]]]]]; reflexivity. }
  destruct (JS.truthy (canPlayType "audio/mpeg")) eqn:E.
  - rewrite (filter_all _ _ Hd). reflexivity.
  - rewrite (proj2 (filter_nil_iff _ _) Hd). reflexivity.
Qed.

End FinalShell.

Lemma shell_disabled_iff_no_tracks_witness :
  let s := Final.dispatch deafRuntime blobByName (Final.FileChange twoSongs) Final.initial in
  Final.reachable deafRuntime blobByName s
  /\ Final.hasValidTracks deafRuntime s = false
  /\ cannotPlayAny deafRuntime s = Some true
  /\ shellDisabled deafRuntime s = Some true.
Proof.
  intros s.
  assert (Hr : Final.reachable deafRuntime blobByName s)
    by (apply Final.reach_step; [apply Final.reach_initial|exact I]).
  split; [exact Hr|]. split; [reflexivity|].
  exact (shell_disabled_iff_no_tracks deafRuntime blobByName s Hr).
Defined.

(** ** Duration backfill *)

Section FinalBackfill.

Variable canPlayType : string -> string.

Abbreviation availableTracks := (Final.availableTracks canPlayType).
Abbreviation currentTrack := (Final.currentTrack canPlayType).
Abbreviation setFakeDurationIfMissing := (Final.setFakeDurationIfMissing canPlayType).

Lemma setFakeDuration_unfold (measured : Z) (s : Final.State) :
  setFakeDurationIfMissing measured s =
    match currentTrack s with
    | None => s
    | Some cur =>
        if durationMissing s cur
        then Final.setUserTracks (map (backfilled measured cur)) s
        else s
    end.
Proof. reflexivity. Qed.

Lemma backfilled_fields (measured : Z) (cur ut : Track) :
  title (backfilled measured cur ut) = title ut
  /\ artist (backfilled measured cur ut) = artist ut
  /\ album (backfilled measured cur ut) = album ut
  /\ src (backfilled measured cur ut) = src ut
  /\ isUploaded (backfilled measured cur ut) = isUploaded ut
  /\ (forall d, duration ut = Some d -> backfilled measured cur ut = ut)
  /\ (duration (backfilled measured cur ut) = duration ut
      \/ duration ut = None /\ duration (backfilled measured cur ut) = Some measured).
Proof.
  unfold backfilled.
  destruct (String.eqb (src ut) (src cur)); destruct (duration ut) as [d|] eqn:Ed;
    simpl; repeat split; auto; intros; try discriminate; rewrite Ed; auto.
Qed.

(** X15.  The metadata listener keeps every uploaded track in its place with
    its title, artist, album, source and upload flag; a track whose duration
    is known is left exactly as it is, and a duration that changes was
    missing and becomes the measured one. *)
Theorem backfill_keeps_tracks (measured : Z) (s : Final.State) (i : nat) (t : Track) :
  nth_error (Final.userTracks s) i = Some t ->
  exists t',
    nth_error (Final.userTracks (setFakeDurationIfMissing measured s)) i = Some t'
    /\ title t' = title t /\ artist t' = artist t /\ album t' = album t
    /\ src t' = src t /\ isUploaded t' = isUploaded t
    /\ (forall d, duration t = Some d -> t' = t)
    /\ (duration t' = duration t
        \/ duration t = None /\ duration t' = Some measured).
Proof.
  intros Hnth. rewrite setFakeDuration_unfold.
  assert (Hsame : exists t', nth_error (Final.userTracks s) i = Some t'
            /\ title t' = title t /\ artist t' = artist t /\ album t' = album t
            /\ src t' = src t /\ isUploaded t' = isUploaded t
            /\ (forall d, duration t = Some d -> t' = t)
            /\ (duration t' = duration t
                \/ duration t = None /\ duration t' = Some measured)).
  { exists t. repeat split; auto. }
  destruct (currentTrack s) as [cur|]; [|exact Hsame].
  destruct (durationMissing s cur); [|exact Hsame].
  exists (backfilled measured cur t). split.
  - simpl. rewrite nth_error_map, Hnth. reflexivity.
  - apply backfilled_fields.
Qed.

Lemma filter_map_playable (f : Track -> Track) (l : list Track) :
  (forall t, src (f t) = src t) ->
  filter (playable canPlayType) (map f l) = map f (filter (playable canPlayType) l).
Proof.
  intros Hf. induction l as [|a l IH]; [reflexivity|].
  assert (Hp : playable canPlayType (f a) = playable canPlayType a)
    by (unfold playable; rewrite Hf; reflexivity).
  simpl. rewrite Hp, IH. destruct (playable canPlayType a); reflexivity.
Qed.

Lemma index_map {A B : Type} (f : A -> B) (l : list A) (k : Z) :
  JS.index (map f l) k = option_map f (JS.index l k).
Proof.
  unfold JS.index. destruct (k <? 0); [reflexivity|]. apply nth_error_map.
Qed.

Lemma backfilled_builtins (measured : Z) (cur : Track) :
  map (backfilled measured cur) Final.defaultTracks = Final.defaultTracks.
Proof.
  unfold Final.defaultTracks, backfilled. simpl. rewrite !andb_false_r. reflexivity.
Qed.

Lemma currentTrack_backfilled (measured : Z) (s : Final.State) (cur : Track) :
  currentTrack s = Some cur -> duration cur = None ->
  currentTrack (Final.setUserTracks (map (backfilled measured cur)) s)
  = Some (backfilled measured cur cur).
Proof.
  intros Hcur Hdur.
  assert (Hav : availableTracks (Final.setUserTracks (map (backfilled measured cur)) s)
                = map (backfilled measured cur) (availableTracks s)).
  { unfold Final.availableTracks, Final.allTracks.
    change (Final.userTracks (Final.setUserTracks (map (backfilled measured cur)) s))
      with (map (backfilled measured cur) (Final.userTracks s)).
    rewrite <- (backfilled_builtins measured cur) at 1.
    rewrite <- map_app. apply filter_map_playable.
    intros t. apply backfilled_fields. }
  unfold Final.currentTrack, Final.hasValidTracks in *.
  rewrite Hav. unfold JS.len in *. rewrite length_map.
  change (Final.currentIdx (Final.setUserTracks (map (backfilled measured cur)) s))
    with (Final.currentIdx s).
  destruct (0 <? Z.of_nat (List.length (availableTracks s))).
  - rewrite index_map, Hcur. reflexivity.
  - injection Hcur as <-. discriminate Hdur.
Qed.

(** X16.  When the current track is an upload whose duration is missing, the
    metadata listener makes the measured duration the current track's; and
    the first measurement stays: a second metadata event changes nothing. *)
Theorem backfill_once (m1 m2 : Z) (s : Final.State) :
  setFakeDurationIfMissing m2 (setFakeDurationIfMissing m1 s)
  = setFakeDurationIfMissing m1 s
  /\ (forall cur, currentTrack s = Some cur -> durationMissing s cur = true ->
        exists cur',
          currentTrack (setFakeDurationIfMissing m1 s) = Some cur'
          /\ duration cur' = Some m1
          /\ src cur' = src cur /\ title cur' = title cur).
Proof.
  rewrite (setFakeDuration_unfold m1 s).
  destruct (currentTrack s) as [cur|] eqn:Hcur.
  - destruct (durationMissing s cur) eqn:Hmiss.
    + assert (Hdur : duration cur = None).
      { unfold durationMissing in Hmiss. apply andb_prop in Hmiss as [_ H].
        destruct (duration cur); [discriminate|reflexivity]. }
      pose proof (currentTrack_backfilled m1 s cur Hcur Hdur) as Hnew.
      assert (Hfilled : backfilled m1 cur cur
                = mkTrack (title cur) (artist cur) (album cur) (src cur)
                          (Some m1) (isUploaded cur)).
      { unfold backfilled. rewrite String.eqb_refl, Hdur. reflexivity. }
      split.
      * rewrite setFakeDuration_unfold, Hnew.
        unfold durationMissing at 1. rewrite Hfilled. simpl.
        rewrite andb_false_r. reflexivity.
      * intros c [= <-] _. eexists. split; [exact Hnew|].
        rewrite Hfilled. repeat split.
    + split.
      * rewrite setFakeDuration_unfold, Hcur, Hmiss. reflexivity.
      * intros c [= <-] H. congruence.
  - split.
    + rewrite setFakeDuration_unfold, Hcur. reflexivity.
    + intros c H. discriminate H.
Qed.

End FinalBackfill.

(** Two uploads, the second selected, no duration known yet. *)
Example afterUpload_current :
  Final.currentTrack noWavRuntime
    (Final.handleFileChange noWavRuntime blobByName twoSongs mounted)
  = Some (uploaded "Second" "blob:Second.MP3").
Proof. reflexivity. Qed.

Lemma backfill_keeps_tracks_witness :
  let s := Final.handleFileChange noWavRuntime blobByName twoSongs mounted in
  exists t',
    nth_error (Final.userTracks (Final.setFakeDurationIfMissing noWavRuntime 187 s)) 0
      = Some t'
    /\ title t' = "first" /\ src t' = "blob:first.mp3" /\ duration t' = None.
Proof.
  intros s.
  destruct (backfill_keeps_tracks noWavRuntime 187 s 0 (uploaded "first" "blob:first.mp3"))
    as (t' & Hnth & Ht & _ & _ & Hs & _ & _ & _); [reflexivity|].
  exists t'. split; [exact Hnth|]. split; [exact Ht|]. split; [exact Hs|].
  vm_compute in Hnth. injection Hnth as <-. reflexivity.
Defined.

Lemma backfill_once_witness :
  let s := Final.handleFileChange noWavRuntime blobByName twoSongs mounted in
  exists cur',
    Final.currentTrack noWavRuntime (Final.setFakeDurationIfMissing noWavRuntime 187 s)
      = Some cur'
    /\ duration cur' = Some 187
    /\ src cur' = "blob:Second.MP3" /\ title cur' = "Second".
Proof.
  intros s.
  destruct (backfill_once noWavRuntime 187 200 s) as [_ Hfill].
  apply (Hfill (uploaded "Second" "blob:Second.MP3")); reflexivity.
Defined.

(** ** Invariants of the final revision *)

Section FinalInvariants.

Variable canPlayType : string -> string.
Variable createObjectURL : Final.File -> string.

Abbreviation dispatch := (Final.dispatch canPlayType createObjectURL).
Abbreviation reachable := (Final.reachable canPlayType createObjectURL).

Lemma syncGains_audioError (s : Final.State) :
  Final.audioError (Final.syncGains s) = Final.audioError s.
Proof.
  unfold Final.syncGains.
  destruct (Final.eqNodes (Final.webAudio s)) as [nodes|]; [|reflexivity].
  destruct (List.length nodes =? 3)%nat; [|reflexivity].
  destruct (Final.bandGains s); reflexivity.
Qed.

Lemma setupGraph_audioError (s : Final.State) :
  Final.audioError (Final.setupGraph s) = Final.audioError s.
Proof.
  unfold Final.setupGraph.
  destruct (Final.eqNodes (Final.webAudio s)) as [nodes|]; [|reflexivity].
  destruct (Final.context (Final.webAudio s)); reflexivity.
Qed.

Lemma sliderOnChange_audioError (idx : nat) (nv : Z) (s : Final.State) :
  Final.audioError (Final.sliderOnChange idx nv s) = Final.audioError s.
Proof.
  unfold Final.sliderOnChange.
  destruct (Final.eqNodes (Final.webAudio s)) as [nodes|]; [|reflexivity].
  destruct (idx <? List.length nodes)%nat; reflexivity.
Qed.

Lemma dispatch_audioError (e : Final.Event) (s : Final.State) :
  Final.audioError (dispatch e s) = Final.audioError s
  \/ Final.audioError (dispatch e s) = Final.PlaybackError.
Proof.
  destruct e; simpl; auto.
  - left. unfold Final.handleFileChange. cbv zeta.
    destruct (JS.len files =? 0); [reflexivity|].
    destruct (JS.len (Final.mp3Files files) =? 0); [reflexivity|].
    destruct (negb (JS.len files =? JS.len (Final.mp3Files files))); reflexivity.
  - left. unfold Final.setFakeDurationIfMissing.
    destruct (Final.currentTrack canPlayType s); [|reflexivity].
    case_if; reflexivity.
  - left. unfold Final.setGain.
    rewrite syncGains_audioError. apply sliderOnChange_audioError.
  - left. rewrite syncGains_audioError. apply setupGraph_audioError.
Qed.

(** X17.  Nothing clears a playback error: whatever happens next (another
    track, play, an upload), a message once set is still set; and the only
    messages there are are none and the playback error. *)
Theorem audioError_sticks (e : Final.Event) (s : Final.State) :
  (Final.audioError s <> "" -> Final.audioError (dispatch e s) <> "")
  /\ (reachable s ->
      Final.audioError s = "" \/ Final.audioError s = Final.PlaybackError).
Proof.
  split.
  - intros Hset. destruct (dispatch_audioError e s) as [-> | ->];
      [exact Hset|discriminate].
  - induction 1 as [|s0 e0 Hs IH He]; [left; reflexivity|].
    destruct (dispatch_audioError e0 s0) as [-> | ->]; [exact IH|right; reflexivity].
Qed.

Lemma bandGains_three (s : Final.State) :
  List.length (Final.eqBands s) = 3%nat -> Final.bandGains s = Some (Final.eqBands s).
Proof.
  unfold Final.bandGains.
  destruct (Final.eqBands s) as [|b [|m [|t [|x rest]]]]; simpl; intros H;
    try discriminate; reflexivity.
Qed.

Lemma eqInv_same (s s' : Final.State) :
  Final.eqBands s' = Final.eqBands s -> Final.webAudio s' = Final.webAudio s ->
  eqInv s -> eqInv s'.
Proof. unfold eqInv. intros -> ->. trivial. Qed.

Lemma assign_past_end {A : Type} (arr : list A) (i : nat) (v : A) :
  (List.length arr <= i)%nat -> Final.assign arr i v = arr.
Proof.
  revert i. induction arr as [|x arr IH]; intros [|i] H; simpl in *;
    try reflexivity; try lia.
  rewrite IH by lia. reflexivity.
Qed.

Lemma eqInv_syncGains (s : Final.State) : eqInv s -> eqInv (Final.syncGains s).
Proof.
  intros H. pose proof H as (Hlen & Hnodes & Hctx). unfold Final.syncGains.
  destruct (Final.eqNodes (Final.webAudio s)) as [nodes|] eqn:En; [|exact H].
  destruct (List.length nodes =? 3)%nat; [|exact H].
  rewrite (bandGains_three s Hlen).
  split; [exact Hlen|]. split; simpl.
  - intros ? [= <-]. reflexivity.
  - split; [intros _; discriminate|].
    intros _. apply Hctx; try rewrite En; discriminate.
Qed.

Lemma eqInv_setupGraph (s : Final.State) : eqInv s -> eqInv (Final.setupGraph s).
Proof.
  intros H. pose proof H as (Hlen & Hnodes & Hctx).
  assert (Hnew : eqInv (Final.setWebAudio
                          (Final.mkWebAudio true (Final.bandGains s)) s)).
  { rewrite (bandGains_three s Hlen). split; [exact Hlen|]. split; simpl.
    - intros ? [= <-]. reflexivity.
    - split; [intros _; discriminate|reflexivity]. }
  unfold Final.setupGraph.
  destruct (Final.eqNodes (Final.webAudio s)) as [nodes|]; [|exact Hnew].
  destruct (Final.context (Final.webAudio s)); [exact H|exact Hnew].
Qed.

Lemma eqInv_sliderOnChange (idx : nat) (nv : Z) (s : Final.State) :
  eqInv s -> eqInv (Final.sliderOnChange idx nv s).
Proof.
  intros H. pose proof H as (Hlen & Hnodes & Hctx). unfold Final.sliderOnChange.
  destruct (Final.eqNodes (Final.webAudio s)) as [nodes|] eqn:En.
  - pose proof (Hnodes nodes eq_refl) as ->.
    destruct (idx <? List.length (Final.eqBands s))%nat eqn:Elt.
    + split; [simpl; rewrite length_assign; exact Hlen|]. split; simpl.
      * intros ? [= <-]. reflexivity.
      * split; [intros _; discriminate|].
        intros _. apply Hctx; try rewrite En; discriminate.
    + apply Nat.ltb_ge in Elt.
      split; [simpl; rewrite length_assign; exact Hlen|]. split; simpl.
      * rewrite En. intros ? [= <-]. symmetry. apply assign_past_end. exact Elt.
      * rewrite En. exact Hctx.
  - split; [simpl; rewrite length_assign; exact Hlen|]. split; simpl.
    + rewrite En. discriminate.
    + rewrite En. exact Hctx.
Qed.

Lemma eqInv_dispatch (e : Final.Event) (s : Final.State) :
  eqInv s -> eqInv (dispatch e s).
Proof.
  intros H. destruct e; simpl; try exact H.
  - unfold Final.handleFileChange. cbv zeta.
    destruct (JS.len files =? 0); [exact H|].
    destruct (JS.len (Final.mp3Files files) =? 0); [exact H|].
    destruct (negb (JS.len files =? JS.len (Final.mp3Files files))); exact H.
  - unfold Final.setFakeDurationIfMissing.
    destruct (Final.currentTrack canPlayType s); [|exact H].
    case_if; exact H.
  - apply eqInv_syncGains, eqInv_sliderOnChange, H.
  - apply eqInv_syncGains, eqInv_setupGraph, H.
Qed.

Lemma reachable_eqInv (s : Final.State) : reachable s -> eqInv s.
Proof.
  induction 1 as [|s e Hs IH He].
  - split; [reflexivity|]. split; simpl; [discriminate|].
    split; [discriminate|intros H; contradiction].
  - apply eqInv_dispatch. exact IH.
Qed.

(** X18.  In every reachable state there are exactly three bands; once the
    filters are built their gains are the bands' values, filter for band;
    and the audio context exists exactly when the filters do. *)
Theorem equalizer_mirrors_bands (s : Final.State) :
  reachable s ->
  List.length (Final.eqBands s) = 3%nat
  /\ (forall idx g, Final.appliedGain idx s = Some g ->
        nth_error (Final.eqBands s) idx = Some g)
  /\ (Final.context (Final.webAudio s) = true <->
      Final.eqNodes (Final.webAudio s) <> None).
Proof.
  intros Hr. destruct (reachable_eqInv s Hr) as (Hlen & Hnodes & Hctx).
  split; [exact Hlen|]. split; [|exact Hctx].
  intros idx g. unfold Final.appliedGain.
  destruct (Final.eqNodes (Final.webAudio s)) as [nodes|]; [|discriminate].
  rewrite (Hnodes nodes eq_refl). trivial.
Qed.

Lemma nth_error_assign_other {A : Type} (arr : list A) (i j : nat) (v : A) :
  i <> j -> nth_error (Final.assign arr i v) j = nth_error arr j.
Proof.
  revert i j. induction arr as [|x arr IH]; intros [|i] [|j] H; simpl;
    try reflexivity; try contradiction.
  apply IH. congruence.
Qed.

Lemma syncGains_eqBands (s : Final.State) :
  Final.eqBands (Final.syncGains s) = Final.eqBands s.
Proof.
  unfold Final.syncGains.
  destruct (Final.eqNodes (Final.webAudio s)) as [nodes|]; [|reflexivity].
  destruct (List.length nodes =? 3)%nat; [|reflexivity].
  destruct (Final.bandGains s); reflexivity.
Qed.

Lemma sliderOnChange_eqBands (idx : nat) (nv : Z) (s : Final.State) :
  Final.eqBands (Final.sliderOnChange idx nv s) = Final.assign (Final.eqBands s) idx nv.
Proof.
  unfold Final.sliderOnChange.
  destruct (Final.eqNodes (Final.webAudio s)) as [nodes|]; [|reflexivity].
  destruct (idx <? List.length nodes)%nat; reflexivity.
Qed.

Lemma syncGains_none (s : Final.State) :
  Final.eqNodes (Final.webAudio (Final.syncGains s)) = None
  <-> Final.eqNodes (Final.webAudio s) = None.
Proof.
  unfold Final.syncGains.
  destruct (Final.eqNodes (Final.webAudio s)) as [nodes|] eqn:En;
    [|rewrite En; tauto].
  destruct (List.length nodes =? 3)%nat; [|rewrite En; tauto].
  destruct (Final.bandGains s); [|rewrite En; tauto].
  simpl. split; discriminate.
Qed.

Lemma sliderOnChange_none (idx : nat) (nv : Z) (s : Final.State) :
  Final.eqNodes (Final.webAudio (Final.sliderOnChange idx nv s)) = None
  <-> Final.eqNodes (Final.webAudio s) = None.
Proof.
  unfold Final.sliderOnChange.
  destruct (Final.eqNodes (Final.webAudio s)) as [nodes|] eqn:En;
    [|simpl; rewrite En; tauto].
  destruct (idx <? List.length nodes)%nat; simpl;
    [|rewrite En]; split; discriminate.
Qed.

(** X19.  Moving one slider leaves the other bands alone: from a reachable
    state, both the stored value and the filter gain of every other band are
    what they were. *)
Theorem slider_moves_one_band (s : Final.State) (idx other : nat) (db : Z) :
  reachable s -> other <> idx ->
  nth_error (Final.eqBands (Final.setGain idx db s)) other
    = nth_error (Final.eqBands s) other
  /\ Final.appliedGain other (Final.setGain idx db s) = Final.appliedGain other s.
Proof.
  intros Hr Hneq.
  pose proof (reachable_eqInv s Hr) as Hinv.
  pose proof (eqInv_syncGains _ (eqInv_sliderOnChange idx db s Hinv)) as Hafter.
  fold (Final.setGain idx db s) in Hafter.
  assert (Hbands : Final.eqBands (Final.setGain idx db s)
                   = Final.assign (Final.eqBands s) idx db).
  { unfold Final.setGain. rewrite syncGains_eqBands. apply sliderOnChange_eqBands. }
  assert (Hnone : Final.eqNodes (Final.webAudio (Final.setGain idx db s)) = None
                  <-> Final.eqNodes (Final.webAudio s) = None).
  { unfold Final.setGain. rewrite syncGains_none. apply sliderOnChange_none. }
  split.
  - rewrite Hbands. apply nth_error_assign_other. congruence.
  - destruct Hinv as (_ & Hnodes & _). destruct Hafter as (_ & Hnodes' & _).
    unfold Final.appliedGain.
    destruct (Final.eqNodes (Final.webAudio s)) as [nodes|] eqn:En.
    + destruct (Final.eqNodes (Final.webAudio (Final.setGain idx db s)))
        as [nodes'|] eqn:En'.
      * rewrite (Hnodes' nodes' eq_refl), (Hnodes nodes eq_refl), Hbands.
        apply nth_error_assign_other. congruence.
      * exfalso. pose proof (proj1 Hnone eq_refl) as Hn. discriminate Hn.
    + rewrite (proj2 Hnone eq_refl). reflexivity.
Qed.

(** X20.  Every uploaded track of a reachable state is flagged as uploaded
    and credited to "You" on the album "Uploaded". *)
Theorem uploads_are_shaped (s : Final.State) :
  reachable s -> Forall uploadShaped (Final.userTracks s).
Proof.
  induction 1 as [|s e Hs IH He]; [constructor|].
  destruct e; simpl; try exact IH.
  - rewrite handleFileChange_userTracks. simpl.
    destruct (JS.len (Final.mp3Files files) =? 0); [exact IH|].
    rewrite appendUnique_unfold. apply Forall_app. split; [exact IH|].
    apply Forall_forall. intros t Ht. unfold Final.uniqueNew in Ht. cbv zeta in Ht.
    apply filter_In in Ht as [Ht _]. apply in_map_iff in Ht as (f & <- & _).
    repeat split.
  - rewrite setFakeDuration_unfold.
    destruct (Final.currentTrack canPlayType s) as [cur|]; [|exact IH].
    destruct (durationMissing s cur); [|exact IH].
    simpl. apply Forall_forall. intros t Ht.
    apply in_map_iff in Ht as (u & <- & Hu).
    pose proof (proj1 (Forall_forall _ _) IH u Hu) as (H1 & H2 & H3).
    destruct (backfilled_fields measured cur u) as (_ & Ha & Hb & _ & Hc & _).
    unfold uploadShaped. rewrite Ha, Hb, Hc. repeat split; assumption.
  - unfold Final.setGain.
    rewrite (proj2 (syncGains_frame _)), (proj2 (sliderOnChange_frame _ _ _)).
    exact IH.
  - rewrite (proj2 (syncGains_frame _)), (proj2 (setupGraph_frame _)). exact IH.
Qed.

End FinalInvariants.

Lemma equalizer_mirrors_bands_witness :
  let s := Final.dispatch noWavRuntime blobByName (Final.Slider 2 5) mounted in
  List.length (Final.eqBands s) = 3%nat
  /\ (forall idx g, Final.appliedGain idx s = Some g ->
        nth_error (Final.eqBands s) idx = Some g)
  /\ (Final.context (Final.webAudio s) = true <->
      Final.eqNodes (Final.webAudio s) <> None).
Proof.
  intros s. apply (equalizer_mirrors_bands noWavRuntime blobByName s).
  apply Final.reach_step; [exact mounted_reachable|]. simpl. lia.
Defined.

Lemma slider_moves_one_band_witness :
  let s := Final.dispatch noWavRuntime blobByName (Final.Slider 2 5) mounted in
  nth_error (Final.eqBands (Final.setGain 0 (-3) s)) 2 = Some 5
  /\ Final.appliedGain 2 (Final.setGain 0 (-3) s) = Some 5.
Proof.
  intros s.
  destruct (slider_moves_one_band noWavRuntime blobByName s 0 2 (-3)) as [Hb Hg].
  - apply Final.reach_step; [exact mounted_reachable|]. simpl. lia.
  - discriminate.
  - rewrite Hb, Hg. split; reflexivity.
Defined.

Lemma uploads_are_shaped_witness :
  Forall uploadShaped
    (Final.userTracks
       (Final.dispatch noWavRuntime blobByName (Final.FileChange mixedBatch) mounted)).
Proof.
  apply (uploads_are_shaped noWavRuntime blobByName).
  apply Final.reach_step; [exact mounted_reachable|exact I].
Defined.

Lemma audioError_sticks_witness :
  let s := Final.dispatch noWavRuntime blobByName Final.AudioError mounted in
  Final.audioError s = Final.PlaybackError
  /\ Final.audioError
       (Final.dispatch noWavRuntime blobByName (Final.TrackClick 1) s) <> "".
Proof.
  intros s. split; [reflexivity|].
  apply (audioError_sticks noWavRuntime blobByName (Final.TrackClick 1) s).
  discriminate.
Defined.

(** ** Shuffle *)

Section ShuffleDraws.

Variable audioTracks : list Track.

Lemma drawUntilDifferent_result (excl : Z) (draws : list Z) (n : Z) :
  ShuffleRepeat.drawUntilDifferent excl draws = Some n -> n <> excl /\ In n draws.
Proof.
  induction draws as [|d rest IH]; simpl; [discriminate|].
  destruct (d =? excl) eqn:E.
  - intros H. destruct (IH H) as [Hn Hin]. split; [exact Hn|right; exact Hin].
  - intros [= <-]. apply Z.eqb_neq in E. split; [exact E|left; reflexivity].
Qed.

(** X21.  Under shuffle with at least two tracks listed, and draws that are
    positions of the list, as soon as one draw differs from the current index
    both [handleNext] and [handlePrev] move to the same index: a position of
    the list, never the current one; the position is reset and the intent is
    to play.  Previous is as random as next. *)
Theorem shuffle_picks_another (draws : list Z) (s : ShuffleRepeat.State) :
  ShuffleRepeat.shuffle s = true ->
  2 <= JS.len audioTracks ->
  Forall (fun d => 0 <= d < JS.len audioTracks) draws ->
  (exists d, In d draws /\ d <> ShuffleRepeat.currentIdx s) ->
  exists s',
    ShuffleRepeat.handleNext audioTracks draws s = Some s'
    /\ ShuffleRepeat.handlePrev audioTracks draws s = Some s'
    /\ ShuffleRepeat.currentIdx s' <> ShuffleRepeat.currentIdx s
    /\ 0 <= ShuffleRepeat.currentIdx s' < JS.len audioTracks
    /\ ShuffleRepeat.progress s' = 0
    /\ ShuffleRepeat.playing s' = true.
Proof.
  intros Hsh Hlen Hrange Hfresh.
  destruct (drawUntilDifferent_some _ _ Hfresh) as (n & Hn & _).
  destruct (drawUntilDifferent_result _ _ _ Hn) as [Hneq Hin].
  assert (Hrand : ShuffleRepeat.getRandomIdx audioTracks (ShuffleRepeat.currentIdx s) draws
                  = Some n).
  { unfold ShuffleRepeat.getRandomIdx.
    replace (JS.len audioTracks <? 2) with false by (symmetry; apply Z.ltb_ge; lia).
    exact Hn. }
  exists (ShuffleRepeat.setPlaying (fun _ => true)
            (ShuffleRepeat.setCurrentIdx (fun _ => n) (ShuffleRepeat.setProgress 0 s))).
  unfold ShuffleRepeat.handleNext, ShuffleRepeat.handlePrev. cbv zeta.
  rewrite Hsh.
  change (ShuffleRepeat.currentIdx (ShuffleRepeat.setProgress 0 s))
    with (ShuffleRepeat.currentIdx s).
  rewrite Hrand. simpl. repeat split; try assumption;
    apply (proj1 (Forall_forall _ _) Hrange n Hin).
Qed.

End ShuffleDraws.

Lemma shuffle_picks_another_witness :
  exists s',
    ShuffleRepeat.handleNext ShuffleRepeat.audioTracks_shipped [0; 0; 2] shufflingPaused
      = Some s'
    /\ ShuffleRepeat.handlePrev ShuffleRepeat.audioTracks_shipped [0; 0; 2] shufflingPaused
       = Some s'
    /\ ShuffleRepeat.currentIdx s' <> 0
    /\ 0 <= ShuffleRepeat.currentIdx s' < 3
    /\ ShuffleRepeat.progress s' = 0
    /\ ShuffleRepeat.playing s' = true.
Proof.
  apply (shuffle_picks_another ShuffleRepeat.audioTracks_shipped [0; 0; 2] shufflingPaused).
  - reflexivity.
  - unfold JS.len. simpl. lia.
  - unfold JS.len. simpl. repeat (constructor; [lia|]). constructor.
  - exists 2. split; [simpl; auto|discriminate].
Defined.

(** ** The first revision *)

Lemma first_index_in_range (s : First.State) :
  First.reachable s -> 0 <= First.currentIdx s < JS.len First.dummyTracks.
Proof.
  induction 1 as [|s e Hs IH He].
  - unfold JS.len. simpl. lia.
  - destruct e; simpl.
    + exact IH.
    + apply getNextTrackIdx_in_range. unfold JS.len. simpl. lia.
    + apply getNextTrackIdx_in_range. unfold JS.len. simpl. lia.
    + simpl in He. unfold JS.len. simpl. lia.
Qed.

(** X22.  The first revision indexes its three tracks without a modulo, and
    needs none: in every reachable state the index is a position of the
    list and the current track is the track at that position. *)
Theorem first_currentTrack_defined (s : First.State) :
  First.reachable s ->
  0 <= First.currentIdx s < 3
  /\ exists t, First.currentTrack s = Some t /\ In t First.dummyTracks.
Proof.
  intros Hr. pose proof (first_index_in_range s Hr) as Hrange.
  split; [exact Hrange|].
  unfold First.currentTrack, JS.index.
  destruct (First.currentIdx s <? 0) eqn:E; [lia|].
  destruct (nth_error First.dummyTracks (Z.to_nat (First.currentIdx s))) as [t|] eqn:En.
  - exists t. split; [reflexivity|]. exact (nth_error_In _ _ En).
  - apply nth_error_None in En. unfold JS.len in Hrange. lia.
Qed.

Lemma first_currentTrack_defined_witness :
  let s := First.dispatch First.Next
             (First.dispatch First.Prev (First.dispatch First.Prev First.initial)) in
  0 <= First.currentIdx s < 3
  /\ exists t, First.currentTrack s = Some t /\ In t First.dummyTracks.
Proof.
  intros s. apply (first_currentTrack_defined s).
  repeat (apply First.reach_step; [|exact I]). apply First.reach_initial.
Defined.

(** ** The second revision: covers *)

Lemma artOf_nth (u i : nat) :
  Covers.artOf u i = nth_error Covers.mockArts ((u + i) mod 4).
Proof.
  unfold Covers.artOf, JS.index, JS.rem.
  change (JS.len Covers.mockArts) with 4.
  rewrite Z.rem_mod_nonneg by lia.
  pose proof (Z.mod_pos_bound (Z.of_nat u + Z.of_nat i) 4 ltac:(lia)) as Hb.
  destruct ((Z.of_nat u + Z.of_nat i) mod 4 <? 0) eqn:E; [lia|].
  f_equal. rewrite <- Nat2Z.inj_add.
  change 4 with (Z.of_nat 4). rewrite <- Nat2Z.inj_mod. apply Nat2Z.id.
Qed.

(** X23.  Every uploaded track of the second revision gets one of the four
    covers, never [undefined]; two files of a batch share a cover exactly
    when their positions differ by a multiple of four, so up to four files
    get four different covers. *)
Theorem covers_cycle (userTracksLength i j : nat) :
  (exists a, Covers.artOf userTracksLength i = Some a /\ In a Covers.mockArts)
  /\ (Covers.artOf userTracksLength i = Covers.artOf userTracksLength j
      <-> (i mod 4 = j mod 4)%nat).
Proof.
  rewrite !artOf_nth.
  assert (Hi : ((userTracksLength + i) mod 4 < 4)%nat) by (apply Nat.mod_upper_bound; lia).
  assert (Hj : ((userTracksLength + j) mod 4 < 4)%nat) by (apply Nat.mod_upper_bound; lia).
  split.
  - destruct (nth_error Covers.mockArts ((userTracksLength + i) mod 4)) as [a|] eqn:E.
    + exists a. split; [reflexivity|exact (nth_error_In _ _ E)].
    + apply nth_error_None in E.
      change (List.length Covers.mockArts) with 4%nat in E. lia.
  - assert (Hmod : ((userTracksLength + i) mod 4 = (userTracksLength + j) mod 4
                    <-> i mod 4 = j mod 4)%nat).
    { rewrite (Nat.Div0.add_mod userTracksLength i), (Nat.Div0.add_mod userTracksLength j).
      pose proof (Nat.mod_upper_bound userTracksLength 4 ltac:(lia)).
      pose proof (Nat.mod_upper_bound i 4 ltac:(lia)).
      pose proof (Nat.mod_upper_bound j 4 ltac:(lia)).
      destruct (userTracksLength mod 4)%nat as [|[|[|[|?]]]]; try lia;
      destruct (i mod 4)%nat as [|[|[|[|?]]]]; try lia;
      destruct (j mod 4)%nat as [|[|[|[|?]]]]; try lia;
      simpl; split; intros; try reflexivity; try discriminate. }
    rewrite <- Hmod.
    destruct ((userTracksLength + i) mod 4)%nat as [|[|[|[|?]]]]; try lia;
    destruct ((userTracksLength + j) mod 4)%nat as [|[|[|[|?]]]]; try lia;
    simpl; split; intros H; try reflexivity; try discriminate H.
Qed.

(** ** Sources in a browser *)

Section BrowserStore.

Variable canPlayType : string -> string.

Lemma allTracks_sources (s s' : Final.State) :
  map src (Final.userTracks s') = map src (Final.userTracks s) ->
  map src (Final.allTracks s') = map src (Final.allTracks s).
Proof.
  intros H. unfold Final.allTracks. rewrite !map_app, H. reflexivity.
Qed.

(** An upload under fresh URLs keeps the sources of the store apart. *)
Lemma upload_keeps_distinct (url : Final.File -> string)
    (files : list Final.File) (s : Final.State) :
  freshURLs url files s ->
  NoDup (map src (Final.allTracks s)) ->
  NoDup (map src (Final.allTracks (Final.handleFileChange canPlayType url files s))).
Proof.
  intros [Hnodup Hfresh] Hstore. unfold Final.allTracks.
  rewrite handleFileChange_userTracks.
  destruct (JS.len (Final.mp3Files files) =? 0); [exact Hstore|].
  apply appendUnique_dedup.
  - exact Hstore.
  - rewrite map_map. exact Hnodup.
  - intros t Ht Hin. apply in_map_iff in Ht as (f & <- & Hf).
    apply (Hfresh f Hf). unfold Final.allTracks. rewrite map_app.
    apply in_or_app. left. exact Hin.
Qed.

Lemma upload_keeps_present (url : Final.File -> string)
    (files : list Final.File) (s : Final.State) (x : string) :
  In x (map src (Final.allTracks s)) ->
  In x (map src (Final.allTracks (Final.handleFileChange canPlayType url files s))).
Proof.
  unfold Final.allTracks. rewrite handleFileChange_userTracks.
  destruct (JS.len (Final.mp3Files files) =? 0); [trivial|].
  rewrite appendUnique_unfold, app_assoc. intros H.
  rewrite map_app. apply in_or_app. left. exact H.
Qed.

Lemma browserReachable_distinct (s : Final.State) :
  browserReachable canPlayType s -> NoDup (map src (Final.allTracks s)).
Proof.
  induction 1 as [|s e url Hs IH He Hfresh].
  - simpl. distinct_strings.
  - destruct e; try exact IH.
    + apply (upload_keeps_distinct url files
               (Final.setFileInputValue (Final.selectionValue files) s));
        [exact (Hfresh files eq_refl)|exact IH].
    + rewrite (allTracks_sources s); [exact IH|]. apply setFakeDuration_sources.
    + rewrite (allTracks_sources s); [exact IH|].
      cbn [Final.dispatch]. unfold Final.setGain.
      rewrite (proj2 (syncGains_frame _)), (proj2 (sliderOnChange_frame _ _ _)).
      reflexivity.
    + rewrite (allTracks_sources s); [exact IH|].
      cbn [Final.dispatch].
      rewrite (proj2 (syncGains_frame _)), (proj2 (setupGraph_frame _)).
      reflexivity.
Qed.

(** C6.  In every state the component reaches in a browser no two tracks of
    the store, built-in or uploaded, share a source.  Appending any batch of
    tracks never raises the number of uploaded tracks carrying a source that
    is already uploaded; and after an upload every source the store held is
    still held exactly once. *)
Theorem no_shared_sources (s : Final.State) :
  browserReachable canPlayType s ->
  NoDup (map src (Final.allTracks s))
  /\ (forall batch x, In x (map src (Final.userTracks s)) ->
        sourceCount x (Final.appendUnique batch (Final.userTracks s))
        = sourceCount x (Final.userTracks s))
  /\ (forall url files x,
        freshURLs url files s ->
        In x (map src (Final.allTracks s)) ->
        sourceCount x (Final.allTracks (Final.handleFileChange canPlayType url files s))
        = 1%nat).
Proof.
  intros Hr. pose proof (browserReachable_distinct s Hr) as Hstore.
  split; [exact Hstore|]. split.
  - intros batch x Hx. apply appendUnique_dedup. exact Hx.
  - intros url files x Hfresh Hx.
    apply (proj1 (NoDup_count_occ' string_dec _)).
    + apply upload_keeps_distinct; assumption.
    + apply upload_keeps_present. exact Hx.
Qed.

End BrowserStore.

(** Two songs uploaded in a browser. *)
Lemma twoSongs_fresh : freshURLs blobByName twoSongs mounted.
Proof.
  split; [distinct_strings|].
  intros f Hf. simpl in Hf. destruct Hf as [<-|[<-|[]]]; simpl; intuition discriminate.
Qed.

Lemma no_shared_sources_witness :
  let s := Final.dispatch noWavRuntime blobByName (Final.FileChange twoSongs) mounted in
  browserReachable noWavRuntime s
  /\ List.length (Final.allTracks s) = 6%nat
  /\ NoDup (map src (Final.allTracks s))
  /\ sourceCount "blob:first.mp3"
       (Final.appendUnique [uploaded "again" "blob:first.mp3"] (Final.userTracks s))
     = 1%nat.
Proof.
  intros s.
  assert (Hr : browserReachable noWavRuntime s).
  { apply browser_step.
    - apply (browser_step noWavRuntime Final.initial Final.GraphEffect blobByName).
      + apply browser_initial.
      + exact I.
      + intros files Hfiles. discriminate Hfiles.
    - exact I.
    - intros files [= <-]. exact twoSongs_fresh. }
  destruct (no_shared_sources noWavRuntime s Hr) as (Hnodup & Hcount & _).
  split; [exact Hr|]. split; [reflexivity|]. split; [exact Hnodup|].
  rewrite Hcount; [reflexivity|]. simpl. auto.
Defined.

(** ** The sliders' range *)

Section SliderRange.

Variable canPlayType : string -> string.
Variable createObjectURL : Final.File -> string.

Abbreviation reachable := (Final.reachable canPlayType createObjectURL).

Lemma rangeValue_bounds (min max raw : Z) :
  min <= max -> min <= rangeValue min max raw <= max.
Proof. unfold rangeValue. lia. Qed.

Lemma rangeValue_inside (min max raw : Z) :
  min <= raw <= max -> rangeValue min max raw = raw.
Proof. unfold rangeValue. lia. Qed.

(** C4.  Whatever value is asked of a band's slider, the value the slider
    reports is that value kept within [[-12, 12]]; the callback stores it in
    the band and, once the filters are built, applies it to the band's
    filter; and no filter's gain is outside [[-12, 12]] afterwards. *)
Theorem setGain_within_range (s : Final.State) (idx : nat) (raw : Z) :
  reachable s ->
  (idx < 3)%nat ->
  -12 <= rangeValue (-12) 12 raw <= 12
  /\ (-12 <= raw <= 12 -> rangeValue (-12) 12 raw = raw)
  /\ (raw < -12 -> rangeValue (-12) 12 raw = -12)
  /\ (12 < raw -> rangeValue (-12) 12 raw = 12)
  /\ reachable (Final.setGain idx (rangeValue (-12) 12 raw) s)
  /\ nth_error (Final.eqBands (Final.setGain idx (rangeValue (-12) 12 raw) s)) idx
     = Some (rangeValue (-12) 12 raw)
  /\ (Final.eqNodes (Final.webAudio s) <> None ->
      Final.appliedGain idx (Final.setGain idx (rangeValue (-12) 12 raw) s)
      = Some (rangeValue (-12) 12 raw))
  /\ (forall i g,
        Final.appliedGain i (Final.setGain idx (rangeValue (-12) 12 raw) s) = Some g ->
        -12 <= g <= 12).
Proof.
  intros Hr Hidx.
  pose proof (rangeValue_bounds (-12) 12 raw ltac:(lia)) as Hb.
  destruct (reachable_eqInv canPlayType createObjectURL s Hr) as (Hlen & Hnodes & _).
  assert (Hen : Final.enabled canPlayType
                  (Final.Slider idx (rangeValue (-12) 12 raw)) s).
  { simpl. rewrite Hlen. split; [exact Hidx|exact Hb]. }
  assert (Hr' : reachable (Final.setGain idx (rangeValue (-12) 12 raw) s)).
  { exact (Final.reach_step canPlayType createObjectURL s
             (Final.Slider idx (rangeValue (-12) 12 raw)) Hr Hen). }
  split; [exact Hb|].
  split; [apply rangeValue_inside|].
  split; [unfold rangeValue; lia|].
  split; [unfold rangeValue; lia|].
  split; [exact Hr'|].
  split; [apply setGain_band; rewrite Hlen; exact Hidx|].
  split.
  - intros Hsome.
    destruct (Final.eqNodes (Final.webAudio s)) as [nodes|] eqn:En; [|contradiction].
    apply (setGain_applied s idx _ nodes En).
    rewrite (Hnodes nodes eq_refl), Hlen. exact Hidx.
  - intros i g Hg.
    destruct (reachable_gainInv canPlayType createObjectURL _ Hr') as [_ Hn].
    unfold Final.appliedGain in Hg.
    destruct (Final.eqNodes
                (Final.webAudio (Final.setGain idx (rangeValue (-12) 12 raw) s)))
      as [nodes'|]; [|discriminate].
    apply nth_error_In in Hg.
    exact (proj1 (Forall_forall _ _) (Hn nodes' eq_refl) g Hg).
Qed.

End SliderRange.

Lemma setGain_within_range_witness :
  rangeValue (-12) 12 20 = 12
  /\ Final.appliedGain 0 (Final.setGain 0 (rangeValue (-12) 12 20) mounted) = Some 12
  /\ Final.appliedGain 2 (Final.setGain 2 (rangeValue (-12) 12 (-7)) mounted) = Some (-7)
  /\ (forall i g,
        Final.appliedGain i (Final.setGain 0 (rangeValue (-12) 12 20) mounted) = Some g ->
        -12 <= g <= 12).
Proof.
  destruct (setGain_within_range noWavRuntime blobByName mounted 0 20)
    as (_ & _ & _ & Hhigh & _ & _ & Hgain & Hall); [exact mounted_reachable|lia|].
  destruct (setGain_within_range noWavRuntime blobByName mounted 2 (-7))
    as (_ & Hin & _ & _ & _ & _ & Hgain' & _); [exact mounted_reachable|lia|].
  split; [apply Hhigh; lia|].
  split; [rewrite Hgain; [rewrite Hhigh by lia; reflexivity|discriminate]|].
  split; [rewrite Hgain'; [rewrite Hin by lia; reflexivity|discriminate]|].
  exact Hall.
Defined.
